(** * Verification of [scripts/benchmark_models.py]

    A shallow embedding of the benchmark core: the percentile estimator,
    the endpoint normalisation of [ServerSpec], the trial executor
    [run_single_chat], the semaphore-bounded scheduler [run_benchmark] and
    the aggregator [aggregate].

    Conventions of the embedding.
    - A Python [str] is a list of Unicode code points ([pystr]).
    - A Python [int] is a [Z].
    - A finite Python [float] is an exact rational ([Q]); rounding is not
      modelled, values are read up to it.  Overflow and underflow are not
      modelled either: a statement that depends on how large or how small
      a float can be carries the range as a hypothesis.  [float("nan")] is
      the extra constructor [NaN] of [pyfloat].
    - A computation that may raise returns a [result]: [Ok v] or [Raise e].
    - The network and the clock are inputs: an [AsyncClient] records what
      the HTTP client delivers to one trial together with the
      [time.perf_counter()] readings taken while it is handled.
    - The event loop of asyncio is a transition system on the counter of
      the semaphore and the waiting, running and completed trials. *)

From Stdlib Require Import ZArith QArith Qround List String Ascii Bool.
From Stdlib Require Import Lia Lqa Permutation Sorted.
Import ListNotations.

Open Scope Z_scope.

(** ** Python runtime: strings, exceptions, indexing *)

Definition pystr := list N.

(** A literal of the source, as code points. *)
Definition lit (s : string) : pystr :=
  map N_of_ascii (list_ascii_of_string s).

Definition pystr_eqb (a b : pystr) : bool :=
  if list_eq_dec N.eq_dec a b then true else false.

Definition len {A} (l : list A) : Z := Z.of_nat (List.length l).

Inductive exc_type :=
| AttributeError | TypeError | KeyError | IndexError
| ZeroDivisionError | ValueError | TransportError.

(** An exception object: its class and what [str(exc)] returns. *)
Record pyexc := mk_exc { exc_class : exc_type; exc_str : pystr }.

Inductive result (A : Type) :=
| Ok (a : A)
| Raise (e : pyexc).
Arguments Ok {A} a.
Arguments Raise {A} e.

Definition bind {A B} (r : result A) (k : A -> result B) : result B :=
  match r with
  | Ok a => k a
  | Raise e => Raise e
  end.

Notation "x <- r ;; k" := (bind r (fun x => k))
  (at level 61, r at next level, right associativity).

Definition index_error : pyexc :=
  mk_exc IndexError (lit "list index out of range").

(** [l[i]] on a list: negative indices count from the end, anything
    outside [-n, n) raises [IndexError]. *)
Definition list_getitem {A} (l : list A) (i : Z) : result A :=
  let j := if i <? 0 then i + len l else i in
  if (0 <=? j) && (j <? len l) then
    match nth_error l (Z.to_nat j) with
    | Some x => Ok x
    | None => Raise index_error
    end
  else Raise index_error.

(** ** Floats *)

Inductive pyfloat :=
| Num (q : Q)
| NaN.

(** [int(k)] on a float: truncation toward zero. *)
Definition py_int (k : Q) : Z := Z.quot (Qnum k) (Zpos (Qden k)).

(** [sorted(values)]: a stable sort by [<=]. *)
Fixpoint insert (x : Q) (l : list Q) : list Q :=
  match l with
  | [] => [x]
  | y :: l' => if Qle_bool x y then x :: y :: l' else y :: insert x l'
  end.

Fixpoint sorted (l : list Q) : list Q :=
  match l with
  | [] => []
  | x :: l' => insert x (sorted l')
  end.

(** ** Percentile estimator (lines 89-100) *)

Definition percentile (values : list Q) (p : Q) : result pyfloat :=
  match values with
  | [] => Ok NaN
  | _ :: _ =>
      let values_sorted := sorted values in
      let k := (inject_Z (len values_sorted - 1) * p)%Q in
      let f := py_int k in
      let c := Z.min (f + 1) (len values_sorted - 1) in
      if f =? c then
        x <- list_getitem values_sorted (py_int k) ;;
        Ok (Num x)
      else
        a <- list_getitem values_sorted f ;;
        let d0 := (a * (inject_Z c - k))%Q in
        b <- list_getitem values_sorted c ;;
        let d1 := (b * (k - inject_Z f))%Q in
        Ok (Num (d0 + d1)%Q)
  end.

(** The estimator as the specification words it: the value at rank
    [(n-1)*p], interpolated linearly between the order statistics at the
    floor and at the ceiling of the rank. *)
Definition order_stat (l : list Q) (i : Z) : Q :=
  nth (Z.to_nat i) (sorted l) 0%Q.

Definition rank (l : list Q) (p : Q) : Q := (inject_Z (len l - 1) * p)%Q.

Definition interpolated (l : list Q) (p : Q) : Q :=
  let k := rank l p in
  let lo := order_stat l (Qfloor k) in
  let hi := order_stat l (Qceiling k) in
  (lo + (k - inject_Z (Qfloor k)) * (hi - lo))%Q.

(** [v] is (equal as a number to) the least, resp. greatest, element. *)
Definition is_minimum (v : Q) (l : list Q) : Prop :=
  (exists m, In m l /\ (m == v)%Q) /\ forall x, In x l -> (v <= x)%Q.

Definition is_maximum (v : Q) (l : list Q) : Prop :=
  (exists m, In m l /\ (m == v)%Q) /\ forall x, In x l -> (x <= v)%Q.

(** ** ServerSpec and its endpoint (lines 39-52) *)

(** [s.rstrip(chars)] and [s.lstrip(chars)] for a set of code points given
    by its membership test. *)
Fixpoint rstrip (strip : N -> bool) (s : pystr) : pystr :=
  match s with
  | [] => []
  | ch :: s' =>
      match rstrip strip s' with
      | [] => if strip ch then [] else [ch]
      | r => ch :: r
      end
  end.

Fixpoint lstrip (strip : N -> bool) (s : pystr) : pystr :=
  match s with
  | [] => []
  | ch :: s' => if strip ch then lstrip strip s' else s
  end.

Definition startswith (s prefix : pystr) : bool :=
  pystr_eqb (firstn (List.length prefix) s) prefix.

Definition endswith (s suffix : pystr) : bool :=
  (List.length suffix <=? List.length s)%nat
  && pystr_eqb (skipn (List.length s - List.length suffix) s) suffix.

Definition slash : N := 47%N.
Definition is_slash (ch : N) : bool := N.eqb ch slash.

Record ServerSpec := mk_server {
  name : pystr;
  base_url : pystr;
  model : pystr
}.

Definition endpoint (self : ServerSpec) : pystr :=
  let base := rstrip is_slash (base_url self) in
  if endswith base (lit "/v1") then base ++ lit "/chat/completions"
  else if endswith base (lit "/v1/") then base ++ lit "chat/completions"
  else base ++ lit "/v1/chat/completions".

(** The same target with another base URL. *)
Definition with_base (self : ServerSpec) (url : pystr) : ServerSpec :=
  mk_server (name self) url (model self).

Definition slashes (k : nat) : pystr := repeat slash k.

(** The base URL without its trailing slashes and without one [/v1]. *)
Definition stem (url : pystr) : pystr :=
  let base := rstrip is_slash url in
  if endswith base (lit "/v1") then firstn (List.length base - 3) base
  else base.

(** ** JSON values and the duck-typed accesses of the executor *)

#[local] Unset Elimination Schemes.
Inductive json :=
| JNull
| JBool (b : bool)
| JInt (z : Z)
| JFloat (q : Q)
| JStr (s : pystr)
| JArr (items : list json)
| JObj (fields : list (pystr * json)).
#[local] Set Elimination Schemes.

(** Truth value of an object, as [if x:] and [x or y] test it. *)
Definition truthy (v : json) : bool :=
  match v with
  | JNull => false
  | JBool b => b
  | JInt z => negb (z =? 0)
  | JFloat q => negb (Qeq_bool q 0)
  | JStr s => match s with [] => false | _ => true end
  | JArr l => match l with [] => false | _ => true end
  | JObj l => match l with [] => false | _ => true end
  end.

Definition py_or (a b : json) : json := if truthy a then a else b.

Definition type_name (v : json) : pystr :=
  match v with
  | JNull => lit "NoneType"
  | JBool _ => lit "bool"
  | JInt _ => lit "int"
  | JFloat _ => lit "float"
  | JStr _ => lit "str"
  | JArr _ => lit "list"
  | JObj _ => lit "dict"
  end.

Definition no_attribute (v : json) (attr : string) : pyexc :=
  mk_exc AttributeError
    (lit "'" ++ type_name v ++ lit "' object has no attribute '"
         ++ lit attr ++ lit "'").

Fixpoint lookup {V} (key : pystr) (d : list (pystr * V)) : option V :=
  match d with
  | [] => None
  | (k, v) :: d' => if pystr_eqb k key then Some v else lookup key d'
  end.

(** [o.get(key, default)]: only a dict has the method. *)
Definition dict_get (o : json) (key : pystr) (default : json) : result json :=
  match o with
  | JObj fields =>
      Ok (match lookup key fields with Some v => v | None => default end)
  | _ => Raise (no_attribute o "get")
  end.

(** [v[0]]. *)
Definition getitem0 (v : json) : result json :=
  match v with
  | JArr (x :: _) => Ok x
  | JArr [] => Raise index_error
  | JStr (ch :: _) => Ok (JStr [ch])
  | JStr [] => Raise (mk_exc IndexError (lit "string index out of range"))
  | JObj _ => Raise (mk_exc KeyError (lit "0"))
  | _ =>
      Raise (mk_exc TypeError
               (lit "'" ++ type_name v ++ lit "' object is not subscriptable"))
  end.

(** [len(v)]. *)
Definition py_len (v : json) : result Z :=
  match v with
  | JStr s => Ok (len s)
  | JArr l => Ok (len l)
  | JObj l => Ok (len l)
  | _ =>
      Raise (mk_exc TypeError
               (lit "object of type '" ++ type_name v ++ lit "' has no len()"))
  end.

(** Bytes of one code point in UTF-8; a lone surrogate cannot be encoded
    and is dropped by [errors="ignore"]. *)
Definition utf8_width (cp : N) : Z :=
  if (cp <? 128)%N then 1
  else if (cp <? 2048)%N then 2
  else if (55296 <=? cp)%N && (cp <=? 57343)%N then 0
  else if (cp <? 65536)%N then 3
  else 4.

Definition utf8_len (s : pystr) : Z :=
  fold_right (fun cp acc => utf8_width cp + acc) 0 s.

(** [len(v.encode("utf-8", errors="ignore"))]: only a str has [encode]. *)
Definition encode_len (v : json) : result Z :=
  match v with
  | JStr s => Ok (utf8_len s)
  | _ => Raise (no_attribute v "encode")
  end.

(** Code points that [str.strip()] removes. *)
Definition is_space (cp : N) : bool :=
  ((9 <=? cp) && (cp <=? 13) || (28 <=? cp) && (cp <=? 32)
   || (cp =? 133) || (cp =? 160) || (cp =? 5760)
   || (8192 <=? cp) && (cp <=? 8202)
   || (cp =? 8232) || (cp =? 8233) || (cp =? 8239) || (cp =? 8287)
   || (cp =? 12288))%N.

Definition strip (s : pystr) : pystr := rstrip is_space (lstrip is_space s).

(** A dict with string keys, in insertion order. *)
Definition pydict := list (pystr * json).

Fixpoint dict_set (d : pydict) (key : pystr) (v : json) : pydict :=
  match d with
  | [] => [(key, v)]
  | (k, old) :: d' =>
      if pystr_eqb k key then (k, v) :: d' else (k, old) :: dict_set d' key v
  end.

(** [d.update(e)]: the entries of [e] win on a key collision. *)
Definition dict_update (d e : pydict) : pydict :=
  fold_left (fun acc kv => dict_set acc (fst kv) (snd kv)) e d.

(** ** Requests, responses and the clock *)

Record RequestConfig := mk_cfg {
  temperature : Q;
  max_tokens : Z;
  stream : bool;
  timeout_seconds : Q;
  extra_json : option pydict
}.

Record SingleResult := mk_result {
  server : pystr;
  r_model : pystr;
  prompt_id : Z;
  iteration : Z;
  success : bool;
  status_code : option Z;
  ttft_ms : option Q;
  total_ms : option Q;
  output_chars : Z;
  output_bytes : Z;
  error : option pystr
}.

Record request := mk_request {
  req_url : pystr;
  req_json : pydict;
  req_headers : list (pystr * pystr);
  req_timeout : Q
}.

(** What [resp.aiter_lines()] delivers: lines, then the end of the stream
    or an exception.  Every event carries the [time.perf_counter()]
    reading that the executor obtains while it handles the event. *)
Inductive feed :=
| FLine (line : pystr) (now : Q) (rest : feed)
| FClosed (now : Q)
| FRaise (e : pyexc) (now : Q).

Inductive stream_reply :=
| StreamRaise (e : pyexc) (now : Q)
| StreamOpen (status : Z) (lines : feed).

Inductive post_reply :=
| PostRaise (e : pyexc) (now : Q)
| PostResponse (status : Z) (text : pystr) (now : Q).

(** The client as one trial sees it: the clock reading at line 142, the
    environment variable, and the reply to either kind of request. *)
Record AsyncClient := mk_client {
  perf_counter_start : Q;
  openai_api_key : option pystr;
  client_stream : request -> stream_reply;
  client_post : request -> post_reply
}.

(** The local variables that the [except] handler of [run_single_chat]
    still reads. *)
Record locals := mk_locals {
  l_ttft_ms : option Q;
  l_total_ms : option Q;
  l_output_chars : Z;
  l_output_bytes : Z;
  l_status_code : option Z
}.

Definition set_ttft (lv : locals) (t : Q) : locals :=
  mk_locals (Some t) (l_total_ms lv) (l_output_chars lv) (l_output_bytes lv)
            (l_status_code lv).
Definition set_total (lv : locals) (t : Q) : locals :=
  mk_locals (l_ttft_ms lv) (Some t) (l_output_chars lv) (l_output_bytes lv)
            (l_status_code lv).
Definition add_chars (lv : locals) (n : Z) : locals :=
  mk_locals (l_ttft_ms lv) (l_total_ms lv) (l_output_chars lv + n)
            (l_output_bytes lv) (l_status_code lv).
Definition add_bytes (lv : locals) (n : Z) : locals :=
  mk_locals (l_ttft_ms lv) (l_total_ms lv) (l_output_chars lv)
            (l_output_bytes lv + n) (l_status_code lv).
Definition set_status (lv : locals) (s : Z) : locals :=
  mk_locals (l_ttft_ms lv) (l_total_ms lv) (l_output_chars lv)
            (l_output_bytes lv) (Some s).

(** How the [try] block ends: it reaches line 212, or an exception reaches
    the handler of line 226 at clock reading [now]. *)
Inductive try_end :=
| Completed (lv : locals)
| Excepted (e : pyexc) (now : Q) (lv : locals).

(** The locals that the loop leaves behind. *)
Definition locals_of (t : try_end) : locals :=
  match t with
  | Completed lv => lv
  | Excepted _ _ lv => lv
  end.

(** [(time.perf_counter() - t0) * 1000.0] *)
Definition elapsed_ms (t0 now : Q) : Q := ((now - t0) * 1000)%Q.

(** ** Trial executor (lines 103-240) *)

Section Executor.

(** [json.loads]: [None] stands for [JSONDecodeError].  [json.dumps]. *)
Variable json_loads : pystr -> option json.
Variable json_dumps : json -> pystr.

(** Lines 153-157. *)
Definition frame_data (line : pystr) : pystr :=
  if startswith line (lit "data: ") then strip (skipn 6 line)
  else strip line.

(** Lines 162-175. *)
Definition chunk_text_of (data : pystr) : result json :=
  match json_loads data with
  | None => Ok (JStr data)
  | Some obj =>
      c <- dict_get obj (lit "choices") JNull ;;
      let choices := py_or c (JArr []) in
      if truthy choices then
        c0 <- getitem0 choices ;;
        d <- dict_get c0 (lit "delta") JNull ;;
        let delta := py_or d (JObj []) in
        t <- dict_get delta (lit "content") (JStr []) ;;
        Ok (py_or t (JStr []))
      else
        t <- dict_get obj (lit "content") (JStr []) ;;
        Ok (py_or t (JStr []))
  end.

(** The [async for] loop of lines 150-182 and line 184. *)
Fixpoint consume (t0 : Q) (lines : feed) (first_token_emitted : bool)
         (lv : locals) : try_end :=
  match lines with
  | FClosed now => Completed (set_total lv (elapsed_ms t0 now))
  | FRaise e now => Excepted e now lv
  | FLine line now rest =>
      match line with
      | [] => consume t0 rest first_token_emitted lv
      | _ :: _ =>
          let data := frame_data line in
          if pystr_eqb data (lit "[DONE]") then
            Completed (set_total lv (elapsed_ms t0 now))
          else
            match chunk_text_of data with
            | Raise e => Excepted e now lv
            | Ok chunk_text =>
                if truthy chunk_text then
                  let lv1 := if first_token_emitted then lv
                             else set_ttft lv (elapsed_ms t0 now) in
                  match py_len chunk_text with
                  | Raise e => Excepted e now lv1
                  | Ok n =>
                      let lv2 := add_chars lv1 n in
                      match encode_len chunk_text with
                      | Raise e => Excepted e now lv2
                      | Ok m => consume t0 rest true (add_bytes lv2 m)
                      end
                  end
                else consume t0 rest first_token_emitted lv
            end
      end
  end.

(** Lines 195 and 197-198. *)
Definition choices_of (data : json) : result json :=
  c <- dict_get data (lit "choices") JNull ;;
  Ok (py_or c (JArr [])).

Definition message_content (choices : json) : result json :=
  c0 <- getitem0 choices ;;
  m <- dict_get c0 (lit "message") JNull ;;
  let msg := py_or m (JObj []) in
  t <- dict_get msg (lit "content") (JStr []) ;;
  Ok (py_or t (JStr [])).

(** Lines 192-210: the size of a non-streamed body.  Any exception in the
    inner [try] falls back to the raw response text. *)
Definition measure_body (text : pystr) : Z * Z :=
  let raw := (len text, utf8_len text) in
  match json_loads text with
  | None => raw
  | Some (JObj fields) =>
      let data := JObj fields in
      let measured :=
        choices <- choices_of data ;;
        if truthy choices then
          content <- message_content choices ;;
          n <- py_len content ;;
          b <- encode_len content ;;
          Ok (n, b)
        else
          let text' := json_dumps data in
          Ok (len text', utf8_len text') in
      match measured with
      | Ok r => r
      | Raise _ => raw
      end
  | Some _ => raw
  end.

(** Lines 113-124. *)
Definition build_payload (srv : ServerSpec) (prompt_text : pystr)
           (cfg : RequestConfig) : pydict :=
  let payload :=
    [ (lit "model", JStr (model srv));
      (lit "messages",
       JArr [JObj [(lit "role", JStr (lit "user"));
                   (lit "content", JStr prompt_text)]]);
      (lit "temperature", JFloat (temperature cfg));
      (lit "max_tokens", JInt (max_tokens cfg));
      (lit "stream", JBool (stream cfg)) ] in
  match extra_json cfg with
  | Some (kv :: more) => dict_update payload (kv :: more)
  | _ => payload
  end.

(** Lines 126-134. *)
Definition build_headers (cfg : RequestConfig) (api_key : option pystr)
  : list (pystr * pystr) :=
  let headers :=
    [ (lit "Content-Type", lit "application/json");
      (lit "Accept",
       if stream cfg then lit "text/event-stream"
       else lit "application/json") ] in
  match api_key with
  | Some (ch :: key) =>
      headers ++ [(lit "Authorization", lit "Bearer " ++ ch :: key)]
  | _ => headers
  end.

Definition in_2xx (status : option Z) : bool :=
  match status with
  | Some s => (200 <=? s) && (s <? 300)
  | None => false
  end.

Definition build_request (client : AsyncClient) (srv : ServerSpec)
           (prompt_text : pystr) (cfg : RequestConfig) : request :=
  mk_request (endpoint srv) (build_payload srv prompt_text cfg)
             (build_headers cfg (openai_api_key client))
             (timeout_seconds cfg).

(** Lines 136-140. *)
Definition init_locals : locals := mk_locals None None 0 0 None.

(** The [try] block, lines 145-210. *)
Definition try_block (client : AsyncClient) (req : request)
           (cfg : RequestConfig) : try_end :=
  let t0 := perf_counter_start client in
  if stream cfg then
    match client_stream client req with
    | StreamRaise e now => Excepted e now init_locals
    | StreamOpen status lines =>
        consume t0 lines false (set_status init_locals status)
    end
  else
    match client_post client req with
    | PostRaise e now => Excepted e now init_locals
    | PostResponse status text now =>
        let total := elapsed_ms t0 now in
        let (chars, bytes) := measure_body text in
        Completed (mk_locals (Some total) (Some total) chars bytes
                             (Some status))
    end.

Definition run_single_chat (client : AsyncClient) (srv : ServerSpec)
           (prompt_id iteration : Z) (prompt_text : pystr)
           (cfg : RequestConfig) : SingleResult :=
  let req := build_request client srv prompt_text cfg in
  let t0 := perf_counter_start client in
  match try_block client req cfg with
  | Completed lv =>
      (* lines 212-225 *)
      mk_result (name srv) (model srv) prompt_id iteration
                (in_2xx (l_status_code lv)) (l_status_code lv)
                (l_ttft_ms lv) (l_total_ms lv)
                (l_output_chars lv) (l_output_bytes lv) None
  | Excepted e now lv =>
      (* lines 226-240 *)
      mk_result (name srv) (model srv) prompt_id iteration
                false None
                (l_ttft_ms lv) (Some (elapsed_ms t0 now))
                (l_output_chars lv) (l_output_bytes lv)
                (Some (exc_str e))
  end.



End Executor.

(** ** Concurrency-bounded scheduler (lines 243-269) *)

Record trial := mk_trial {
  t_srv : ServerSpec;
  t_pidx : Z;
  t_it : Z;
  t_prompt : pystr
}.

Definition enumerate {A} (l : list A) : list (Z * A) :=
  combine (map Z.of_nat (seq 0 (List.length l))) l.

Definition range (lo hi : Z) : list Z :=
  map (fun i => lo + Z.of_nat i) (seq 0 (Z.to_nat (hi - lo))).

(** The tasks created by the three nested loops of lines 259-262, in
    creation order. *)
Definition submitted (servers : list ServerSpec) (prompts : list pystr)
           (iterations : Z) : list trial :=
  flat_map (fun srv =>
    flat_map (fun ip =>
      map (fun it => mk_trial srv (fst ip) it (snd ip))
          (range 1 (iterations + 1)))
      (enumerate prompts))
    servers.

(** The event loop while [run_benchmark] awaits its tasks: the counter of
    the semaphore, the tasks suspended in [async with semaphore] (first
    come, first served), the tasks inside [run_single_chat], and the
    results appended so far, in completion order. *)
Record loop := mk_loop {
  sem_value : Z;
  waiting : list trial;
  running : list trial;
  finished : list SingleResult
}.

(** What the event loop does next: it resumes the first waiting task, or
    the [i]-th running task completes. *)
Inductive choice :=
| Admit
| Finish (i : nat).

Definition value_error : pyexc :=
  mk_exc ValueError (lit "Semaphore initial value must be >= 0").

Section Scheduler.

Variable json_loads : pystr -> option json.
Variable json_dumps : json -> pystr.
(** The shared client as each trial meets it. *)
Variable net : trial -> AsyncClient.
Variable cfg : RequestConfig.

(** The body that [bound_request] runs while it holds the semaphore. *)
Definition bound_request (t : trial) : SingleResult :=
  run_single_chat json_loads json_dumps (net t)
                  (t_srv t) (t_pidx t) (t_it t) (t_prompt t) cfg.

Inductive step : loop -> loop -> Prop :=
| step_acquire v t w r f :
    0 < v ->
    step (mk_loop v (t :: w) r f) (mk_loop (v - 1) w (r ++ [t]) f)
| step_release v w r1 t r2 f :
    step (mk_loop v w (r1 ++ t :: r2) f)
         (mk_loop (v + 1) w (r1 ++ r2) (f ++ [bound_request t])).

Inductive reachable (st0 : loop) : loop -> Prop :=
| reach_start : reachable st0 st0
| reach_step st st' : reachable st0 st -> step st st' -> reachable st0 st'.

Definition acquire (st : loop) : option loop :=
  match waiting st with
  | t :: w =>
      if 0 <? sem_value st then
        Some (mk_loop (sem_value st - 1) w (running st ++ [t]) (finished st))
      else None
  | [] => None
  end.

Definition release (i : nat) (st : loop) : option loop :=
  match nth_error (running st) i with
  | Some t =>
      Some (mk_loop (sem_value st + 1) (waiting st)
                    (firstn i (running st) ++ skipn (S i) (running st))
                    (finished st ++ [bound_request t]))
  | None => None
  end.

(** One turn of the loop under the choice [c]; a choice that is not
    enabled falls back to the other kind of turn.  [None]: every task is
    blocked. *)
Definition next (c : choice) (st : loop) : option loop :=
  match c with
  | Admit =>
      match acquire st with
      | Some st' => Some st'
      | None => release 0 st
      end
  | Finish i =>
      match release (Nat.modulo i (List.length (running st))) st with
      | Some st' => Some st'
      | None => acquire st
      end
  end.

(** Lines 264-269: all tasks completed gives the results; [None] when
    the loop has not come that far after [fuel] turns. *)
Fixpoint event_loop (fuel : nat) (sched : loop -> choice) (st : loop)
  : option (list SingleResult) :=
  match waiting st, running st with
  | [], [] => Some (finished st)
  | _, _ =>
      match fuel with
      | O => None
      | S fuel' =>
          match next (sched st) st with
          | Some st' => event_loop fuel' sched st'
          | None => None
          end
      end
  end.

Definition start (servers : list ServerSpec) (prompts : list pystr)
           (iterations concurrency : Z) : loop :=
  mk_loop concurrency (submitted servers prompts iterations) [] [].

Definition run_benchmark (fuel : nat) (sched : loop -> choice)
           (servers : list ServerSpec) (prompts : list pystr)
           (iterations concurrency : Z)
  : option (result (list SingleResult)) :=
  if concurrency <? 0 then Some (Raise value_error)
  else
    option_map Ok
      (event_loop fuel sched (start servers prompts iterations concurrency)).

(** The permits handed out are exactly the running trials. *)
Definition permits_ok (k : Z) (st : loop) : Prop :=
  0 <= sem_value st /\ sem_value st + len (running st) = k.

(** Every submitted trial is waiting, running, or has left its outcome. *)
Definition accounted (all : list trial) (st : loop) : Prop :=
  Permutation
    (finished st ++ map bound_request (running st) ++ map bound_request (waiting st))
    (map bound_request all).

(** Turns still to come: two for a waiting trial, one for a running one. *)
Definition turns_left (st : loop) : nat :=
  (2 * List.length (waiting st) + List.length (running st))%nat.

End Scheduler.

(** ** Aggregator (lines 272-307) *)

Definition zero_division : pyexc :=
  mk_exc ZeroDivisionError (lit "float division by zero").

(** [a / b] with a finite divisor. *)
Definition truediv (a b : Q) : result Q :=
  if Qeq_bool b 0 then Raise zero_division else Ok (a / b)%Q.

(** [a / b] on floats that may be NaN. *)
Definition float_div (a b : pyfloat) : result pyfloat :=
  match b with
  | Num d =>
      if Qeq_bool d 0 then Raise zero_division
      else Ok (match a with Num n => Num (n / d)%Q | NaN => NaN end)
  | NaN => Ok NaN
  end.

Definition sum (l : list Q) : Q := fold_left Qplus l 0%Q.
Definition sum_int (l : list Z) : Z := fold_left Z.add l 0.

Record Summary := mk_summary {
  runs : Z;
  success_rate : Q;
  ttft_ms_avg : pyfloat;
  ttft_ms_p50 : pyfloat;
  ttft_ms_p95 : pyfloat;
  total_ms_avg : pyfloat;
  total_ms_p50 : pyfloat;
  total_ms_p95 : pyfloat;
  output_chars_avg : pyfloat;
  output_bytes_avg : pyfloat;
  chars_per_sec_avg : pyfloat;
  bytes_per_sec_avg : pyfloat
}.

(** Lines 280-283. *)
Definition latencies (items : list SingleResult) : list Q :=
  flat_map (fun i =>
    if success i then match total_ms i with Some t => [t] | None => [] end
    else []) items.

Definition ttfts (items : list SingleResult) : list Q :=
  flat_map (fun i =>
    if success i then match ttft_ms i with Some t => [t] | None => [] end
    else []) items.

Definition out_chars (items : list SingleResult) : list Z :=
  map output_chars (filter success items).

Definition out_bytes (items : list SingleResult) : list Z :=
  map output_bytes (filter success items).

(** [sum(l) / len(l) if l else float("nan")] *)
Definition mean (l : list Q) : result pyfloat :=
  match l with
  | [] => Ok NaN
  | _ :: _ => q <- truediv (sum l) (inject_Z (len l)) ;; Ok (Num q)
  end.

Definition mean_int (l : list Z) : result pyfloat :=
  match l with
  | [] => Ok NaN
  | _ :: _ =>
      q <- truediv (inject_Z (sum_int l)) (inject_Z (len l)) ;; Ok (Num q)
  end.

(** [percentile(l, p) if l else float("nan")] *)
Definition percentile_or_nan (l : list Q) (p : Q) : result pyfloat :=
  match l with
  | [] => Ok NaN
  | _ :: _ => percentile l p
  end.

(** [(avg / (total_ms_avg / 1000.0)) if latencies else float("nan")] *)
Definition per_sec (avg total_avg : pyfloat) (lat : list Q) : result pyfloat :=
  match lat with
  | [] => Ok NaN
  | _ :: _ =>
      secs <- float_div total_avg (Num 1000) ;;
      float_div avg secs
  end.

(** The body of the loop of lines 279-305 for one group. *)
Definition summarize (items : list SingleResult) : result Summary :=
  let lat := latencies items in
  let tt := ttfts items in
  rate <- truediv (inject_Z (len (filter success items)))
                  (inject_Z (Z.max 1 (len items))) ;;
  total_avg <- mean lat ;;
  ttft_avg <- mean tt ;;
  chars_avg <- mean_int (out_chars items) ;;
  bytes_avg <- mean_int (out_bytes items) ;;
  ttft_p50 <- percentile_or_nan tt (1 # 2) ;;
  ttft_p95 <- percentile_or_nan tt (95 # 100) ;;
  total_p50 <- percentile_or_nan lat (1 # 2) ;;
  total_p95 <- percentile_or_nan lat (95 # 100) ;;
  cps <- per_sec chars_avg total_avg lat ;;
  bps <- per_sec bytes_avg total_avg lat ;;
  Ok (mk_summary (len items) rate ttft_avg ttft_p50 ttft_p95
                 total_avg total_p50 total_p95 chars_avg bytes_avg cps bps).

Definition group_key := (pystr * pystr)%type.

Definition key_eqb (a b : group_key) : bool :=
  pystr_eqb (fst a) (fst b) && pystr_eqb (snd a) (snd b).

(** [groups.setdefault(key, []).append(r)] on an insertion-ordered dict. *)
Fixpoint group_append (groups : list (group_key * list SingleResult))
         (key : group_key) (r : SingleResult)
  : list (group_key * list SingleResult) :=
  match groups with
  | [] => [(key, [r])]
  | (k, items) :: g =>
      if key_eqb k key then (k, items ++ [r]) :: g
      else (k, items) :: group_append g key r
  end.

Definition group (results : list SingleResult)
  : list (group_key * list SingleResult) :=
  fold_left (fun g r => group_append g (server r, r_model r) r) results [].

(** The second loop: one summary per group, in first-seen order; the first
    exception ends the aggregation. *)
Fixpoint summarize_all (groups : list (group_key * list SingleResult))
  : result (list (group_key * Summary)) :=
  match groups with
  | [] => Ok []
  | (k, items) :: g =>
      s <- summarize items ;;
      rest <- summarize_all g ;;
      Ok ((k, s) :: rest)
  end.

Definition aggregate (results : list SingleResult)
  : result (list (group_key * Summary)) :=
  summarize_all (group results).

(** The key of an outcome, and the outcomes of a key in arrival order. *)
Definition key_of (r : SingleResult) : group_key := (server r, r_model r).

Definition members (key : group_key) (results : list SingleResult)
  : list SingleResult :=
  filter (fun r => key_eqb key (key_of r)) results.

(** The dict [groups] after the outcomes [seen]: distinct keys, each with
    its outcomes in arrival order, and a key for every outcome seen. *)
Definition grouped (groups : list (group_key * list SingleResult))
           (seen : list SingleResult) : Prop :=
  NoDup (map fst groups) /\
  (forall k items, In (k, items) groups ->
                   items = members k seen /\ items <> []) /\
  (forall r, In r seen -> In (key_of r) (map fst groups)).

(** The sub-population the specification names: the values of a timing
    field over the outcomes with [success = true] and the field defined. *)
Definition is_defined {A} (o : option A) : bool :=
  match o with Some _ => true | None => false end.

Definition qualifying (field : SingleResult -> option Q)
           (items : list SingleResult) : list Q :=
  flat_map (fun i => match field i with Some t => [t] | None => [] end)
           (filter (fun i => success i && is_defined (field i)) items).

(** ** Sample inputs for the examples *)

(** A JSON string literal: the text between two quotation marks. *)
Definition quoted (s : pystr) : pystr := 34%N :: s ++ [34%N].

(** The body [{"choices":[{"message":{"content":""}}]}] and its value. *)
Definition empty_completion_text : pystr :=
  lit "{" ++ quoted (lit "choices") ++ lit ":[{" ++ quoted (lit "message")
      ++ lit ":{" ++ quoted (lit "content") ++ lit ":" ++ quoted []
      ++ lit "}}]}".

Definition empty_completion : json :=
  JObj [(lit "choices",
         JArr [JObj [(lit "message", JObj [(lit "content", JStr [])])]])].

(** The frame payload [{"choices":[{"delta":{"content":"Hi"}}]}]. *)
Definition hi_delta_text : pystr :=
  lit "{" ++ quoted (lit "choices") ++ lit ":[{" ++ quoted (lit "delta")
      ++ lit ":{" ++ quoted (lit "content") ++ lit ":" ++ quoted (lit "Hi")
      ++ lit "}}]}".

Definition hi_delta : json :=
  JObj [(lit "choices",
         JArr [JObj [(lit "delta", JObj [(lit "content", JStr (lit "Hi"))])]])].

(** The frame payload [{"choices":[{"delta":{}}]}]: a frame without text. *)
Definition blank_delta_text : pystr :=
  lit "{" ++ quoted (lit "choices") ++ lit ":[{" ++ quoted (lit "delta")
      ++ lit ":{}}]}".

Definition blank_delta : json :=
  JObj [(lit "choices", JArr [JObj [(lit "delta", JObj [])]])].

(** The frame payload [{"choices":[{"delta":{"content":" there"}}]}]. *)
Definition there_delta_text : pystr :=
  lit "{" ++ quoted (lit "choices") ++ lit ":[{" ++ quoted (lit "delta")
      ++ lit ":{" ++ quoted (lit "content") ++ lit ":"
      ++ quoted (lit " there") ++ lit "}}]}".

Definition there_delta : json :=
  JObj [(lit "choices",
         JArr [JObj [(lit "delta",
                      JObj [(lit "content", JStr (lit " there"))])]])].

(** [json.loads] and [json.dumps] restricted to the texts above. *)
Definition sample_loads (text : pystr) : option json :=
  if pystr_eqb text empty_completion_text then Some empty_completion
  else if pystr_eqb text hi_delta_text then Some hi_delta
  else if pystr_eqb text there_delta_text then Some there_delta
  else if pystr_eqb text blank_delta_text then Some blank_delta
  else None.

Definition sample_dumps (v : json) : pystr :=
  match v with
  | JObj [] => lit "{}"
  | _ => empty_completion_text
  end.

Definition sample_server : ServerSpec :=
  mk_server (lit "ollama") (lit "http://localhost:11434") (lit "llama3.1").

Definition streaming_cfg : RequestConfig := mk_cfg (2 # 10) 512 true 60 None.

(** A timeout whose exception has no message, as [str(httpx.ReadTimeout(...))]
    often is. *)
Definition silent_timeout : pyexc := mk_exc TransportError [].

Definition refused : pyexc :=
  mk_exc TransportError (lit "All connection attempts failed").

(** The request started at clock reading 10 and timed out at 70. *)
Definition timing_out_client : AsyncClient :=
  mk_client 10 None
            (fun _ => StreamRaise silent_timeout 70)
            (fun _ => PostRaise silent_timeout 70).

(** Status 200 and a completion without text, answered after 250 ms; the
    stream sends one frame without text and then [[DONE]]. *)
Definition empty_answer_client : AsyncClient :=
  mk_client 1 None
            (fun _ =>
               StreamOpen 200
                 (FLine (lit "data: " ++ blank_delta_text) (11 # 10)
                    (FLine (lit "data: [DONE]") (5 # 4) (FClosed (13 # 10)))))
            (fun _ => PostResponse 200 empty_completion_text (5 # 4)).

(** Status 200 and the frames [Hi], [ there], [[DONE]]. *)
Definition greeting_client : AsyncClient :=
  mk_client 0 None
            (fun _ =>
               StreamOpen 200
                 (FLine (lit "data: " ++ hi_delta_text) (1 # 10)
                    (FLine [] (15 # 100)
                       (FLine (lit "data: " ++ there_delta_text) (2 # 10)
                          (FLine (lit "data: [DONE]") (3 # 10)
                             (FClosed (4 # 10)))))))
            (fun _ => PostRaise refused (3 # 10)).

(** Status 200, one frame with the text [Hi], then the connection breaks. *)
Definition breaking_client : AsyncClient :=
  mk_client 0 None
            (fun _ =>
               StreamOpen 200
                 (FLine (lit "data: " ++ hi_delta_text) (1 # 10)
                    (FRaise refused (3 # 10))))
            (fun _ => PostRaise refused (3 # 10)).

(** One successful outcome whose total duration is 0.0 ms. *)
Definition instant_result : SingleResult :=
  mk_result (lit "ollama") (lit "llama3.1") 0 1 true (Some 200)
            (Some 0%Q) (Some 0%Q) 5 5 None.

(** A failed outcome: refused connection after 3 ms. *)
Definition failed_result : SingleResult :=
  mk_result (lit "ollama") (lit "llama3.1") 0 1 false None
            None (Some 3%Q) 0 0 (Some (lit "All connection attempts failed")).

(** Three trials, two prompts and two repetitions on one target. *)
Definition sample_net (t : trial) : AsyncClient :=
  if t_pidx t =? 0 then empty_answer_client else breaking_client.

Definition first_come (st : loop) : choice := Admit.

(** One target, two prompts, two repetitions, one slot; and the state of
    the loop once the first trial has been admitted. *)
Definition sample_start : loop :=
  start [sample_server] [lit "a"; lit "b"] 2 1.

Definition after_one_admission : loop :=
  match acquire sample_start with
  | Some st => st
  | None => sample_start
  end.

(** ** Further definitions: clock, grouping order, command line, export *)

(** The clock readings of a feed never go back from [t]. *)
Fixpoint feed_from (t : Q) (lines : feed) : Prop :=
  match lines with
  | FLine _ now rest => (t <= now)%Q /\ feed_from now rest
  | FClosed now => (t <= now)%Q
  | FRaise _ now => (t <= now)%Q
  end.

(** [time.perf_counter()] is monotonic: every reading that a trial takes is
    at least the reading of line 142. *)
Definition clock_ok (client : AsyncClient) (req : request) : Prop :=
  match client_stream client req with
  | StreamRaise _ now => (perf_counter_start client <= now)%Q
  | StreamOpen _ lines => feed_from (perf_counter_start client) lines
  end /\
  match client_post client req with
  | PostRaise _ now => (perf_counter_start client <= now)%Q
  | PostResponse _ _ now => (perf_counter_start client <= now)%Q
  end.

(** The timings left by a [try] block are ordered: they are not negative
    and the time to first token, when set, is at most the total. *)
Definition timed (t0 : Q) (t : try_end) : Prop :=
  match t with
  | Completed lv =>
      exists b, l_total_ms lv = Some b /\ (0 <= b)%Q /\
        forall a, l_ttft_ms lv = Some a -> (0 <= a)%Q /\ (a <= b)%Q
  | Excepted _ now lv =>
      (0 <= elapsed_ms t0 now)%Q /\
      forall a, l_ttft_ms lv = Some a ->
                (0 <= a)%Q /\ (a <= elapsed_ms t0 now)%Q
  end.

(** The payload without the vendor-specific options. *)
Definition without_extra (cfg : RequestConfig) : RequestConfig :=
  mk_cfg (temperature cfg) (max_tokens cfg) (stream cfg)
         (timeout_seconds cfg) None.

(** The distinct keys of a list, each at its first occurrence. *)
Fixpoint first_seen (keys : list group_key) : list group_key :=
  match keys with
  | [] => []
  | k :: keys' =>
      k :: filter (fun k' => negb (key_eqb k k')) (first_seen keys')
  end.

Definition total_runs (summary : list (group_key * Summary)) : Z :=
  fold_right (fun ks acc => runs (snd ks) + acc) 0 summary.

(** *** [parse_server_arg] (lines 79-86) *)

Definition bar : N := 124%N.

(** [s.split(sep, maxsplit)] for a separator of one character. *)
Fixpoint split_on (sep : N) (s : pystr) (maxsplit : nat) : list pystr :=
  match s with
  | [] => [[]]
  | ch :: s' =>
      match maxsplit with
      | O => [s]
      | S m =>
          if N.eqb ch sep then [] :: split_on sep s' m
          else
            match split_on sep s' maxsplit with
            | part :: parts => (ch :: part) :: parts
            | [] => [[ch]]
            end
      end
  end.

(** What the type function of an argparse option gives: the parsed value,
    or [argparse.ArgumentTypeError] with its message. *)
Inductive cli_result (A : Type) :=
| Parsed (a : A)
| ArgumentTypeError (msg : pystr).
Arguments Parsed {A} a.
Arguments ArgumentTypeError {A} msg.

(** The unpacking of line 81 needs exactly three parts; otherwise it raises
    [ValueError], which line 83 turns into [ArgumentTypeError]. *)
Definition parse_server_arg (arg : pystr) : cli_result ServerSpec :=
  match split_on bar arg 2 with
  | [n; u; m] => Parsed (mk_server (strip n) (strip u) (strip m))
  | _ =>
      ArgumentTypeError
        (lit "--server must be of the form 'name|base_url|model'")
  end.

(** *** [load_prompts] (lines 383-399) *)

(** What [open(args.prompts_file)] gives: the lines of the file, or an
    [OSError] with its text. *)
Inductive file_read :=
| FileLines (lines : list pystr)
| FileError (msg : pystr).

Definition default_prompts : list pystr :=
  [ lit "Explain the significance of the Turing Test in AI in 2-3 sentences.";
    lit "Write a Python function for Fibonacci using memoization.";
    lit "Summarize the benefits and drawbacks of static typing vs dynamic typing." ].

(** Lines 386-390: the stripped lines of the file that are not blank. *)
Definition file_prompts (lines : list pystr) : list pystr :=
  filter (fun line => match line with [] => false | _ => true end)
         (map strip lines).

(** [prompts_file] is [None] when [args.prompts_file] is absent or empty.
    [inl msg]: the [OSError] of [open] leaves the function. *)
Definition load_prompts (prompts_file : option file_read)
           (prompt : list pystr) : pystr + list pystr :=
  let from_file :=
    match prompts_file with
    | Some (FileLines lines) => inr (file_prompts lines)
    | Some (FileError msg) => inl msg
    | None => inr []
    end in
  match from_file with
  | inl msg => inl msg
  | inr prompts =>
      let prompts := prompts ++ prompt in
      match prompts with
      | [] => inr default_prompts
      | _ :: _ => inr prompts
      end
  end.

(** *** Export helpers (lines 318 and 326-328) *)

(** [d[key] = v] on an insertion-ordered dict. *)
Fixpoint put {V} (d : list (pystr * V)) (key : pystr) (v : V)
  : list (pystr * V) :=
  match d with
  | [] => [(key, v)]
  | (k, old) :: d' =>
      if pystr_eqb k key then (k, v) :: d' else (k, old) :: put d' key v
  end.

(** [f"{k[0]}|{k[1]}"] *)
Definition friendly_key (k : group_key) : pystr := fst k ++ bar :: snd k.

(** Line 318: the dict comprehension that re-keys the summary. *)
Definition friendly_summary (summary : list (group_key * Summary))
  : list (pystr * Summary) :=
  fold_left (fun d kv => put d (friendly_key (fst kv)) (snd kv)) summary [].

Definition json_of_option {A} (f : A -> json) (o : option A) : json :=
  match o with
  | Some a => f a
  | None => JNull
  end.

(** [dataclasses.asdict(r)]: the fields in declaration order. *)
Definition asdict (r : SingleResult) : pydict :=
  [ (lit "server", JStr (server r));
    (lit "model", JStr (r_model r));
    (lit "prompt_id", JInt (prompt_id r));
    (lit "iteration", JInt (iteration r));
    (lit "success", JBool (success r));
    (lit "status_code", json_of_option JInt (status_code r));
    (lit "ttft_ms", json_of_option JFloat (ttft_ms r));
    (lit "total_ms", json_of_option JFloat (total_ms r));
    (lit "output_chars", JInt (output_chars r));
    (lit "output_bytes", JInt (output_bytes r));
    (lit "error", json_of_option JStr (error r)) ].

(** Lines 326-328: the header of the CSV file. *)
Definition csv_fieldnames (results : list SingleResult) : list pystr :=
  match results with
  | r :: _ => map fst (asdict r)
  | [] =>
      [ lit "server"; lit "model"; lit "prompt_id"; lit "iteration";
        lit "success"; lit "status_code"; lit "ttft_ms"; lit "total_ms";
        lit "output_chars"; lit "output_bytes"; lit "error" ]
  end.

(** A successful outcome of another target, 250 ms in total, first token
    after 100 ms. *)
Definition other_result : SingleResult :=
  mk_result (lit "lmstudio") (lit "Meta-Llama-3.1-8B-Instruct") 1 2 true
            (Some 200) (Some 100%Q) (Some 250%Q) 12 14 None.

Definition mixed_results : list SingleResult :=
  [failed_result; other_result; failed_result; other_result].

(** ** Responses without output tokens, read off the wire *)







Section ZeroTokens.

Variable json_loads : pystr -> option json.





End ZeroTokens.








(** Sizes within [sys.maxsize], the bound of [len]: the number of outcomes
    and the output sizes of each. *)
Definition sizes_fit (results : list SingleResult) : Prop :=
  len results < 2 ^ 63 /\
  forall r, In r results ->
    0 <= output_chars r < 2 ^ 63 /\ 0 <= output_bytes r < 2 ^ 63.

(** Every total duration that enters the statistics is at least a
    nanosecond, the resolution of [time.perf_counter()]; durations are in
    milliseconds. *)
Definition durations_resolved (results : list SingleResult) : Prop :=
  forall r t, In r results -> success r = true -> total_ms r = Some t ->
    (1 # 1000000 <= t)%Q.

(** No such duration exceeds [2 ^ 63] ms: the sum of fewer than [2 ^ 63] of
    them is a finite float. *)
Definition durations_bounded (results : list SingleResult) : Prop :=
  forall r t, In r results -> success r = true -> total_ms r = Some t ->
    (t <= inject_Z (2 ^ 63))%Q.

(** * Facts *)

(** ** The result monad and indexing *)

Lemma list_getitem_in_bounds {A} (l : list A) (i : Z) (d : A) :
  0 <= i < len l -> list_getitem l i = Ok (nth (Z.to_nat i) l d).
Proof.
  intros [Hlo Hhi]. unfold list_getitem.
  destruct (Z.ltb_spec i 0) as [Hneg | _]; [lia |].
  destruct (Z.leb_spec 0 i) as [_ | Hneg]; [| lia].
  destruct (Z.ltb_spec i (len l)) as [_ | Hge]; [| lia].
  cbn [andb].
  destruct (nth_error l (Z.to_nat i)) as [x |] eqn:Hnth.
  - now rewrite (nth_error_nth _ _ d Hnth).
  - apply nth_error_None in Hnth. unfold len in Hhi. lia.
Qed.

Lemma list_getitem_past_end {A} (l : list A) (i : Z) :
  len l <= i -> list_getitem l i = Raise index_error.
Proof.
  intros Hge. unfold list_getitem.
  assert (0 <= len l) by (unfold len; lia).
  destruct (Z.ltb_spec i 0) as [Hneg | _]; [lia |].
  destruct (Z.ltb_spec i (len l)) as [Hlt | _]; [lia |].
  now rewrite andb_false_r.
Qed.

(** ** Sorting *)

Lemma insert_length x l : List.length (insert x l) = S (List.length l).
Proof.
  induction l as [| y l IH]; cbn; [reflexivity |].
  destruct (Qle_bool x y); cbn; now rewrite ?IH.
Qed.

Lemma sorted_length l : List.length (sorted l) = List.length l.
Proof.
  induction l as [| x l IH]; cbn; [reflexivity |].
  now rewrite insert_length, IH.
Qed.

Lemma len_sorted l : len (sorted l) = len l.
Proof. unfold len. now rewrite sorted_length. Qed.

Lemma insert_perm x l : Permutation (x :: l) (insert x l).
Proof.
  induction l as [| y l IH]; cbn; [reflexivity |].
  destruct (Qle_bool x y); [reflexivity |].
  rewrite perm_swap. now constructor.
Qed.

Lemma sorted_perm l : Permutation l (sorted l).
Proof.
  induction l as [| x l IH]; cbn; [constructor |].
  rewrite <- insert_perm. now constructor.
Qed.

Lemma insert_ordered x l :
  StronglySorted Qle l -> StronglySorted Qle (insert x l).
Proof.
  induction 1 as [| y l Hs IH Hall]; cbn.
  - repeat constructor.
  - destruct (Qle_bool x y) eqn:Hxy.
    + apply Qle_bool_iff in Hxy. constructor; [now constructor |].
      constructor; [exact Hxy |].
      eapply Forall_impl; [| exact Hall].
      intros z Hz. now apply Qle_trans with y.
    + constructor; [exact IH |].
      assert (Hyx : (y <= x)%Q).
      { destruct (Qlt_le_dec y x) as [Hlt | Hle]; [now apply Qlt_le_weak |].
        apply Qle_bool_iff in Hle. congruence. }
      apply (Permutation_Forall (insert_perm x l)).
      now constructor.
Qed.

Lemma sorted_ordered l : StronglySorted Qle (sorted l).
Proof.
  induction l as [| x l IH]; cbn; [constructor | now apply insert_ordered].
Qed.

(** [sorted] keeps equal keys in their original order: an element is put
    before the first element that is not smaller. *)
Lemma insert_stable x y l :
  (x <= y)%Q -> insert x (y :: l) = x :: y :: l.
Proof. intros H. cbn. apply Qle_bool_iff in H. now rewrite H. Qed.

Lemma ordered_nth_le l i j :
  StronglySorted Qle l ->
  (i <= j < List.length l)%nat -> (nth i l 0 <= nth j l 0)%Q.
Proof.
  intros Hs. revert i j.
  induction Hs as [| x l Hs IH Hall]; intros i j [Hij Hj]; cbn in Hj.
  - lia.
  - destruct j as [| j].
    + replace i with O by lia. apply Qle_refl.
    + destruct i as [| i]; cbn.
      * rewrite Forall_forall in Hall. apply Hall, nth_In. lia.
      * apply IH. lia.
Qed.

(** The first and the last order statistic bound the sample. *)
Lemma sorted_first_is_min l :
  l <> [] ->
  In (nth 0 (sorted l) 0%Q) l /\
  forall x, In x l -> (nth 0 (sorted l) 0 <= x)%Q.
Proof.
  intros Hne.
  assert (Hlen : (0 < List.length (sorted l))%nat).
  { rewrite sorted_length. destruct l; [congruence | cbn; lia]. }
  split.
  - apply (Permutation_in _ (Permutation_sym (sorted_perm l))).
    now apply nth_In.
  - intros x Hx.
    apply (Permutation_in _ (sorted_perm l)) in Hx.
    destruct (In_nth _ _ 0%Q Hx) as (j & Hj & <-).
    apply ordered_nth_le; [apply sorted_ordered | lia].
Qed.

Lemma sorted_last_is_max l :
  l <> [] ->
  In (nth (List.length l - 1) (sorted l) 0%Q) l /\
  forall x, In x l -> (x <= nth (List.length l - 1) (sorted l) 0)%Q.
Proof.
  intros Hne.
  assert (Hlen : (0 < List.length (sorted l))%nat).
  { rewrite sorted_length. destruct l; [congruence | cbn; lia]. }
  pose proof (sorted_length l) as Hsl.
  split.
  - apply (Permutation_in _ (Permutation_sym (sorted_perm l))).
    apply nth_In. lia.
  - intros x Hx.
    apply (Permutation_in _ (sorted_perm l)) in Hx.
    destruct (In_nth _ _ 0%Q Hx) as (j & Hj & <-).
    apply ordered_nth_le; [apply sorted_ordered | lia].
Qed.

(** ** The rank and its integer part *)

Lemma py_int_nonneg k : (0 <= k)%Q -> py_int k = Qfloor k.
Proof.
  destruct k as [n d]. unfold Qle, py_int, Qfloor. cbn. intros H.
  apply Z.quot_div_nonneg; lia.
Qed.

Lemma rank_bounds (m : Z) (p : Q) :
  0 <= m -> (0 <= p)%Q -> (p <= 1)%Q ->
  (0 <= inject_Z m * p)%Q /\ (inject_Z m * p <= inject_Z m)%Q.
Proof.
  intros Hm Hp0 Hp1.
  assert (Hq : (0 <= inject_Z m)%Q).
  { change 0%Q with (inject_Z 0). rewrite <- Zle_Qle. exact Hm. }
  split.
  - now apply Qmult_le_0_compat.
  - rewrite <- (Qmult_1_r (inject_Z m)) at 2.
    rewrite !(Qmult_comm (inject_Z m)).
    now apply Qmult_le_compat_r.
Qed.

Lemma floor_bounds (m : Z) (k : Q) :
  (0 <= k)%Q -> (k <= inject_Z m)%Q -> 0 <= Qfloor k <= m.
Proof.
  intros H0 Hm. split.
  - change 0 with (Qfloor 0). now apply Qfloor_resp_le.
  - rewrite <- (Qfloor_Z m). now apply Qfloor_resp_le.
Qed.

(** The integer part of the rank and its successor capped at the last
    position: the two indices that [percentile] reads. *)
Lemma rank_indices (n : Z) (p : Q) :
  1 <= n -> (0 <= p)%Q -> (p <= 1)%Q ->
  let k := (inject_Z (n - 1) * p)%Q in
  let f := py_int k in
  let c := Z.min (f + 1) (n - 1) in
  f = Qfloor k /\ 0 <= f < n /\ 0 <= c < n.
Proof.
  intros Hn Hp0 Hp1 k f c.
  destruct (rank_bounds (n - 1) p) as [Hk0 Hk1]; [lia | assumption .. |].
  fold k in Hk0, Hk1.
  assert (Hf : f = Qfloor k) by (now apply py_int_nonneg).
  pose proof (floor_bounds (n - 1) k Hk0 Hk1) as Hb.
  rewrite <- Hf in Hb. subst c. repeat split; lia.
Qed.

(** On a non-empty sample and a fraction in [0,1] the estimator returns a
    number, and says which. *)
Lemma percentile_value (values : list Q) (p : Q) :
  values <> [] -> (0 <= p)%Q -> (p <= 1)%Q ->
  let vs := sorted values in
  let k := (inject_Z (len vs - 1) * p)%Q in
  let f := py_int k in
  let c := Z.min (f + 1) (len vs - 1) in
  percentile values p =
  Ok (Num (if f =? c then nth (Z.to_nat f) vs 0%Q
           else (nth (Z.to_nat f) vs 0 * (inject_Z c - k)
                 + nth (Z.to_nat c) vs 0 * (k - inject_Z f))%Q)).
Proof.
  intros Hne Hp0 Hp1 vs k f c.
  assert (Hn : 1 <= len vs).
  { unfold vs. rewrite len_sorted. unfold len.
    destruct values; [congruence | cbn; lia]. }
  destruct (rank_indices (len vs) p Hn Hp0 Hp1) as (_ & Hf & Hc).
  fold k in Hf, Hc. fold f in Hf, Hc. fold c in Hc.
  unfold percentile. destruct values as [| v values']; [congruence |].
  fold vs. fold k. fold f. fold c.
  destruct (f =? c).
  - now rewrite (list_getitem_in_bounds vs f 0%Q Hf).
  - rewrite (list_getitem_in_bounds vs f 0%Q Hf). cbn [bind].
    now rewrite (list_getitem_in_bounds vs c 0%Q Hc).
Qed.

Lemma ceiling_floor_cases (k : Q) :
  (Qceiling k = Qfloor k /\ (k == inject_Z (Qfloor k))%Q) \/
  (Qceiling k = Qfloor k + 1 /\ ~ (k == inject_Z (Qfloor k))%Q).
Proof.
  pose proof (Qfloor_le k) as Hfl.
  pose proof (Qle_ceiling k) as Hcl.
  pose proof (Qlt_floor k) as Hfu.
  pose proof (Qceiling_lt k) as Hcu.
  assert (Hlo : Qfloor k <= Qceiling k).
  { rewrite Zle_Qle. now apply Qle_trans with k. }
  assert (Hhi : Qceiling k - 1 < Qfloor k + 1).
  { rewrite Zlt_Qlt. now apply Qlt_trans with k. }
  destruct (Z.eq_dec (Qceiling k) (Qfloor k)) as [Heq | Hneq].
  - left. split; [exact Heq |].
    apply Qle_antisym; [| exact Hfl]. now rewrite <- Heq.
  - right. split; [lia |].
    intros Hk. apply Hneq.
    rewrite (Qceiling_comp _ _ Hk). apply Qceiling_Z.
Qed.

Lemma interpolated_agrees (values : list Q) (p : Q) :
  values <> [] -> (0 <= p)%Q -> (p <= 1)%Q ->
  exists v, percentile values p = Ok (Num v) /\ (v == interpolated values p)%Q.
Proof.
  intros Hne Hp0 Hp1.
  rewrite (percentile_value values p Hne Hp0 Hp1).
  eexists; split; [reflexivity |].
  assert (Hn : 1 <= len (sorted values)).
  { rewrite len_sorted. unfold len. destruct values; [congruence | cbn; lia]. }
  destruct (rank_indices _ p Hn Hp0 Hp1) as (Hfl & Hf & Hc).
  cbv zeta in Hfl, Hf, Hc.
  unfold interpolated, order_stat, rank. rewrite <- (len_sorted values).
  set (vs := sorted values) in *. set (n := len vs) in *.
  set (k := (inject_Z (n - 1) * p)%Q) in *. rewrite <- Hfl.
  set (f := py_int k) in *.
  destruct (rank_bounds (n - 1) p) as [Hk0 Hk1]; [lia | assumption .. |].
  fold k in Hk0, Hk1.
  pose proof (Qfloor_le k) as Hfk. rewrite <- Hfl in Hfk.
  destruct (Z.eqb_spec f (Z.min (f + 1) (n - 1))) as [Heq | Hneq].
  - (* the rank is the last position *)
    assert (Hlast : f = n - 1) by lia.
    assert (Hk : (k == inject_Z f)%Q).
    { apply Qle_antisym; [now rewrite Hlast | exact Hfk]. }
    assert (Hz : (k - inject_Z f == 0)%Q) by (rewrite Hk; ring).
    rewrite Hz. ring.
  - assert (Hc1 : Z.min (f + 1) (n - 1) = f + 1) by lia.
    rewrite Hc1, inject_Z_plus.
    destruct (ceiling_floor_cases k) as [[Hce Hk] | [Hce _]];
      rewrite <- Hfl in *; rewrite Hce.
    + (* an integral rank below the last position *)
      assert (Hz : (k - inject_Z f == 0)%Q) by (rewrite Hk; ring).
      assert (Hu : (inject_Z f + inject_Z 1 - k == 1)%Q).
      { rewrite Hk. change (inject_Z 1) with 1%Q. ring. }
      rewrite Hz, Hu. ring.
    + change (inject_Z 1) with 1%Q. ring.
Qed.

Lemma interpolated_at_0 (values : list Q) (p : Q) :
  values <> [] -> (p == 0)%Q ->
  (interpolated values p == nth 0 (sorted values) 0)%Q.
Proof.
  intros Hne Hp. unfold interpolated, order_stat.
  assert (Hk : (rank values p == inject_Z 0)%Q).
  { unfold rank. rewrite Hp. change (inject_Z 0) with 0%Q. ring. }
  rewrite (Qfloor_comp _ _ Hk), (Qceiling_comp _ _ Hk), Qfloor_Z, Qceiling_Z.
  rewrite Hk. change (Z.to_nat 0) with O. ring.
Qed.

Lemma interpolated_at_1 (values : list Q) (p : Q) :
  values <> [] -> (p == 1)%Q ->
  (interpolated values p
   == nth (List.length values - 1) (sorted values) 0)%Q.
Proof.
  intros Hne Hp. unfold interpolated, order_stat.
  assert (Hk : (rank values p == inject_Z (len values - 1))%Q).
  { unfold rank. rewrite Hp. ring. }
  rewrite (Qfloor_comp _ _ Hk), (Qceiling_comp _ _ Hk), Qfloor_Z, Qceiling_Z.
  rewrite Hk.
  replace (Z.to_nat (len values - 1)) with (List.length values - 1)%nat
    by (unfold len; lia).
  ring.
Qed.

(** C7: on a non-empty sample and a fraction [p] in [0,1], [percentile]
    returns the value interpolated linearly at rank [(n-1)*p] between the
    order statistics at the floor and at the ceiling of the rank; at
    [p = 0] this is the minimum of the sample and at [p = 1] its
    maximum. *)
Theorem percentile_interpolates (values : list Q) (p : Q) :
  values <> [] -> (0 <= p)%Q -> (p <= 1)%Q ->
  exists v,
    percentile values p = Ok (Num v) /\
    (v == interpolated values p)%Q /\
    ((p == 0)%Q -> is_minimum v values) /\
    ((p == 1)%Q -> is_maximum v values).
Proof.
  intros Hne Hp0 Hp1.
  destruct (interpolated_agrees values p Hne Hp0 Hp1) as (v & Hv & Hi).
  exists v. repeat split; try assumption.
  - destruct (sorted_first_is_min values Hne) as [Hin _].
    eexists; split; [exact Hin |].
    now rewrite Hi, interpolated_at_0.
  - intros x Hx. rewrite Hi, interpolated_at_0 by assumption.
    now apply sorted_first_is_min.
  - destruct (sorted_last_is_max values Hne) as [Hin _].
    eexists; split; [exact Hin |].
    now rewrite Hi, interpolated_at_1.
  - intros x Hx. rewrite Hi, interpolated_at_1 by assumption.
    now apply sorted_last_is_max.
Qed.

Lemma percentile_interpolates_witness :
  exists v,
    percentile [3; 1; 2]%Q (1 # 2) = Ok (Num v) /\
    (v == interpolated [3; 1; 2]%Q (1 # 2))%Q /\
    (((1 # 2) == 0)%Q -> is_minimum v [3; 1; 2]%Q) /\
    (((1 # 2) == 1)%Q -> is_maximum v [3; 1; 2]%Q).
Proof.
  apply (percentile_interpolates [3; 1; 2]%Q (1 # 2)).
  - discriminate.
  - unfold Qle; simpl; lia.
  - unfold Qle; simpl; lia.
Defined.

(** C10: for a fraction [p] in [0,1], [percentile] never indexes out of
    bounds: the empty sample gives the sentinel before any indexing, and
    on a sample of length [n > 0] the indices [int(k)], [f] and
    [c = min(f+1, n-1)] lie in [0, n), so that a number is returned.  For
    [p > 1] the index [f] can pass the end and [IndexError] is raised. *)
Theorem percentile_index_safety (values : list Q) (p : Q) :
  (0 <= p)%Q -> (p <= 1)%Q ->
  (values = [] -> percentile values p = Ok NaN) /\
  (values <> [] ->
   let vs := sorted values in
   let n := len vs in
   let k := (inject_Z (n - 1) * p)%Q in
   let f := py_int k in
   let c := Z.min (f + 1) (n - 1) in
   n = len values /\
   0 <= py_int k < n /\ 0 <= f < n /\ 0 <= c < n /\
   list_getitem vs f = Ok (nth (Z.to_nat f) vs 0%Q) /\
   list_getitem vs c = Ok (nth (Z.to_nat c) vs 0%Q) /\
   exists x, percentile values p = Ok (Num x)) /\
  (exists l q, (1 < q)%Q /\ percentile l q = Raise index_error).
Proof.
  intros Hp0 Hp1. split; [| split].
  - now intros ->.
  - intros Hne vs n k f c.
    assert (Hn : 1 <= n).
    { unfold n, vs. rewrite len_sorted. unfold len.
      destruct values; [congruence | cbn; lia]. }
    destruct (rank_indices n p Hn Hp0 Hp1) as (_ & Hf & Hc).
    fold k in Hf, Hc. fold f in Hf, Hc. fold c in Hc.
    repeat split; try lia.
    + apply len_sorted.
    + now apply list_getitem_in_bounds.
    + now apply list_getitem_in_bounds.
    + rewrite (percentile_value values p Hne Hp0 Hp1). eauto.
  - exists [1; 2]%Q, 2%Q. split; [reflexivity | reflexivity].
Qed.

Lemma percentile_index_safety_witness :
  exists x, percentile [4; 1]%Q (95 # 100) = Ok (Num x).
Proof.
  destruct (percentile_index_safety [4; 1]%Q (95 # 100)) as (_ & H & _).
  - unfold Qle; simpl; lia.
  - unfold Qle; simpl; lia.
  - destruct H as (_ & _ & _ & _ & _ & _ & Hx); [discriminate | exact Hx].
Defined.

(** ** Endpoint normalisation *)

Lemma pystr_eqb_eq a b : pystr_eqb a b = true <-> a = b.
Proof.
  unfold pystr_eqb. destruct (list_eq_dec N.eq_dec a b); split; congruence.
Qed.

Lemma endswith_iff s suffix :
  endswith s suffix = true <-> exists pre, s = pre ++ suffix.
Proof.
  unfold endswith. rewrite andb_true_iff, Nat.leb_le, pystr_eqb_eq. split.
  - intros [Hlen Hsk].
    exists (firstn (List.length s - List.length suffix) s).
    rewrite <- (firstn_skipn (List.length s - List.length suffix) s) at 1.
    now rewrite Hsk.
  - intros [pre ->]. rewrite length_app. split; [lia |].
    replace (List.length pre + List.length suffix - List.length suffix)%nat
      with (List.length pre + 0)%nat by lia.
    now rewrite skipn_app, Nat.add_0_r, skipn_all, Nat.sub_diag.
Qed.

Lemma rstrip_app f s t :
  rstrip f (s ++ t) =
  match rstrip f t with
  | [] => rstrip f s
  | r => s ++ r
  end.
Proof.
  induction s as [| ch s IH]; cbn.
  - now destruct (rstrip f t).
  - rewrite IH. destruct (rstrip f t); [reflexivity |]. cbn.
    now destruct s.
Qed.

Lemma rstrip_slashes k : rstrip is_slash (slashes k) = [].
Proof.
  unfold slashes. induction k as [| k IH]; cbn [repeat rstrip];
    [reflexivity | now rewrite IH].
Qed.

Lemma rstrip_last f s x ch : rstrip f s = x ++ [ch] -> f ch = false.
Proof.
  revert x. induction s as [| c s IH]; intros x; cbn.
  - now destruct x.
  - destruct (rstrip f s) as [| r0 r] eqn:Hr.
    + destruct (f c) eqn:Hc; [now destruct x |].
      destruct x as [| x0 x]; cbn;
        [intros [= <-]; assumption | intros [= _ Hx]; now destruct x].
    + destruct x as [| x0 x]; cbn.
      * intros H. inversion H.
      * intros [= _ Hx]. now apply (IH x).
Qed.

Lemma rstrip_fixed f s :
  (forall x ch, s = x ++ [ch] -> f ch = false) -> rstrip f s = s.
Proof.
  induction s as [| ch s IH] using rev_ind; intros H; [reflexivity |].
  rewrite rstrip_app. cbn. now rewrite (H s ch eq_refl).
Qed.

Lemma no_trailing_slash u :
  endswith u (lit "/") = false -> rstrip is_slash u = u.
Proof.
  intros H. apply rstrip_fixed. intros x ch -> .
  destruct (is_slash ch) eqn:Hch; [| reflexivity].
  apply N.eqb_eq in Hch. subst ch.
  assert (Ht : endswith (x ++ [slash]) (lit "/") = true)
    by (apply endswith_iff; now exists x).
  congruence.
Qed.

(** The branch of line 50 is never taken: a stripped base does not end in
    a slash. *)
Lemma stripped_not_v1_slash u :
  endswith (rstrip is_slash u) (lit "/v1/") = false.
Proof.
  destruct (endswith _ _) eqn:H; [| reflexivity].
  apply endswith_iff in H. destruct H as [pre H].
  change (lit "/v1/") with (lit "/v1" ++ [slash]) in H.
  rewrite app_assoc in H. now apply rstrip_last in H.
Qed.

Lemma endpoint_stem (self : ServerSpec) :
  endpoint self = stem (base_url self) ++ lit "/v1/chat/completions".
Proof.
  unfold endpoint, stem. rewrite stripped_not_v1_slash.
  destruct (endswith _ (lit "/v1")) eqn:H; [| reflexivity].
  apply endswith_iff in H. destruct H as [pre H]. rewrite H.
  rewrite length_app.
  replace (List.length pre + List.length (lit "/v1") - 3)%nat
    with (List.length pre + 0)%nat by (cbn; lia).
  rewrite firstn_app_2, firstn_0, app_nil_r, <- app_assoc. reflexivity.
Qed.

Lemma endpoint_trailing_slashes (self : ServerSpec) (k : nat) :
  endpoint (with_base self (base_url self ++ slashes k)) = endpoint self.
Proof.
  unfold endpoint, with_base. cbn [base_url].
  now rewrite rstrip_app, rstrip_slashes.
Qed.

Lemma endpoint_plain (self : ServerSpec) :
  endswith (base_url self) (lit "/") = false ->
  endswith (base_url self) (lit "/v1") = false ->
  endpoint self = base_url self ++ lit "/v1/chat/completions".
Proof.
  intros Hs Hv. pose proof (stripped_not_v1_slash (base_url self)) as Hn.
  unfold endpoint. rewrite (no_trailing_slash _ Hs) in *.
  now rewrite Hv, Hn.
Qed.

Lemma rstrip_v1 u : rstrip is_slash (u ++ lit "/v1") = u ++ lit "/v1".
Proof. rewrite rstrip_app. reflexivity. Qed.

Lemma endpoint_v1_suffix (self : ServerSpec) (k : nat) :
  endpoint (with_base self (base_url self ++ lit "/v1" ++ slashes k))
  = base_url self ++ lit "/v1/chat/completions".
Proof.
  unfold endpoint, with_base. cbn [base_url].
  rewrite app_assoc, rstrip_app, rstrip_slashes, rstrip_v1.
  assert (Hv : endswith (base_url self ++ lit "/v1") (lit "/v1") = true)
    by (apply endswith_iff; eauto).
  rewrite Hv, <- app_assoc. reflexivity.
Qed.

(** C8 (as amended): the endpoint always ends in [/v1/chat/completions];
    trailing slashes on the base URL never change it; and on a base URL
    that ends neither in a slash nor in [/v1], adding [/v1] (with or
    without trailing slashes) does not change it either. *)
Theorem endpoint_canonical (self : ServerSpec) :
  endswith (endpoint self) (lit "/v1/chat/completions") = true /\
  (forall k,
     endpoint (with_base self (base_url self ++ slashes k)) = endpoint self) /\
  (endswith (base_url self) (lit "/") = false ->
   endswith (base_url self) (lit "/v1") = false ->
   forall k,
     endpoint (with_base self (base_url self ++ lit "/v1" ++ slashes k))
     = endpoint self).
Proof.
  split; [| split].
  - apply endswith_iff. rewrite endpoint_stem. eauto.
  - apply endpoint_trailing_slashes.
  - intros Hs Hv k. now rewrite endpoint_v1_suffix, endpoint_plain.
Qed.

Lemma endpoint_canonical_witness :
  let self := mk_server (lit "ollama") (lit "http://localhost:11434")
                        (lit "llama3.1") in
  endpoint (with_base self (base_url self ++ lit "/v1" ++ slashes 2))
  = endpoint self.
Proof.
  intros self.
  destruct (endpoint_canonical self) as (_ & _ & H).
  apply H; reflexivity.
Defined.

(** C8 as stated fails: two base URLs that differ only by a [/v1] suffix
    derive different endpoints when the shorter one already ends in
    [/v1]. *)
Lemma endpoint_v1_suffix_counterexample :
  let a := mk_server (lit "srv") (lit "http://h/v1") (lit "m") in
  let b := with_base a (base_url a ++ lit "/v1") in
  endpoint a = lit "http://h/v1/chat/completions" /\
  endpoint b = lit "http://h/v1/v1/chat/completions" /\
  endpoint b <> endpoint a.
Proof.
  cbv zeta. repeat split; try reflexivity.
  vm_compute. discriminate.
Qed.

(** ** Trial executor *)

Lemma in_2xx_iff (status : option Z) :
  in_2xx status = true <-> exists s, status = Some s /\ 200 <= s < 300.
Proof.
  destruct status as [s |]; cbn.
  - rewrite andb_true_iff, Z.leb_le, Z.ltb_lt. split.
    + intros H. exists s. split; [reflexivity | lia].
    + intros (s' & [= <-] & H). lia.
  - split; [discriminate | now intros (s & H & _)].
Qed.

Section ExecutorFacts.

Variable json_loads : pystr -> option json.
Variable json_dumps : json -> pystr.

Local Abbreviation run := (run_single_chat json_loads json_dumps).
Local Abbreviation body := (try_block json_loads json_dumps).

Lemma success_iff_status client srv pid it prompt cfg :
  let r := run client srv pid it prompt cfg in
  success r = true <->
  exists s, status_code r = Some s /\ 200 <= s < 300.
Proof.
  cbv zeta. unfold run_single_chat.
  destruct (body _ _ _) as [lv | e now lv]; cbn.
  - apply in_2xx_iff.
  - split; [discriminate | now intros (s & H & _)].
Qed.

(** What the handler of line 226 returns. *)
Lemma excepted_result client srv pid it prompt cfg e now lv :
  body client (build_request client srv prompt cfg) cfg = Excepted e now lv ->
  run client srv pid it prompt cfg =
  mk_result (name srv) (model srv) pid it false None (l_ttft_ms lv)
            (Some (elapsed_ms (perf_counter_start client) now))
            (l_output_chars lv) (l_output_bytes lv) (Some (exc_str e)).
Proof. intros H. unfold run_single_chat. now rewrite H. Qed.

Lemma completed_result client srv pid it prompt cfg lv :
  body client (build_request client srv prompt cfg) cfg = Completed lv ->
  run client srv pid it prompt cfg =
  mk_result (name srv) (model srv) pid it
            (in_2xx (l_status_code lv)) (l_status_code lv)
            (l_ttft_ms lv) (l_total_ms lv)
            (l_output_chars lv) (l_output_bytes lv) None.
Proof. intros H. unfold run_single_chat. now rewrite H. Qed.

Lemma consume_status t0 lines fte lv :
  l_status_code (locals_of (consume json_loads t0 lines fte lv))
  = l_status_code lv.
Proof.
  revert fte lv.
  induction lines as [line now rest IH | now | e now]; intros fte lv;
    cbn [consume]; try reflexivity.
  destruct line as [| ch line]; [apply IH |].
  destruct (pystr_eqb _ _); [reflexivity |].
  destruct (chunk_text_of _ _) as [v | e]; [| reflexivity].
  destruct (truthy v); [| apply IH].
  destruct (py_len v) as [n | e]; [| now destruct fte].
  destruct (encode_len v) as [m | e]; [| now destruct fte].
  rewrite IH. now destruct fte.
Qed.


(** C4: in every outcome of the executor, also on the exception path,
    [success] is true if and only if a status code is present and lies in
    [200, 300). *)
Theorem success_iff_2xx client srv pid it prompt cfg :
let r := run_single_chat json_loads json_dumps client srv pid it prompt cfg in
(success r = true <-> exists s, status_code r = Some s /\ 200 <= s < 300) /\
(success r = false ->
 status_code r = None \/
 exists s, status_code r = Some s /\ ~ 200 <= s < 300).
Proof.
intros r. pose proof (success_iff_status client srv pid it prompt cfg) as H.
fold r in H. split; [exact H |].
intros Hf. destruct (status_code r) as [s |] eqn:Hs; [| now left].
right. exists s. split; [reflexivity |].
intros Hr. assert (success r = true) by (apply H; eauto). congruence.
Qed.

(** C5 (as amended): when an exception reaches the handler - raised by the
    client when the request is opened or posted, or later inside the [try]
    block - the executor returns an outcome with [success = false], no
    status code, the total duration elapsed until the failure, and the
    error text [str(exc)], which is non-empty whenever the exception has a
    message. *)
Theorem exception_outcome client srv pid it prompt cfg e now :
let req := build_request client srv prompt cfg in
let r := run_single_chat json_loads json_dumps client srv pid it prompt cfg in
(stream cfg = true /\ client_stream client req = StreamRaise e now) \/
(stream cfg = false /\ client_post client req = PostRaise e now) \/
(exists lv, try_block json_loads json_dumps client req cfg = Excepted e now lv) ->
success r = false /\
status_code r = None /\
total_ms r = Some (elapsed_ms (perf_counter_start client) now) /\
error r = Some (exc_str e) /\
(exc_str e <> [] -> exists msg, error r = Some msg /\ msg <> []).
Proof.
intros req r H.
assert (Hb : exists lv, body client req cfg = Excepted e now lv).
{ destruct H as [[Hs Hc] | [[Hs Hc] | H]]; [| | exact H];
    exists init_locals; unfold try_block; fold req; now rewrite Hs, Hc. }
destruct Hb as [lv Hb]. unfold r.
rewrite (excepted_result _ _ _ _ _ _ _ _ _ Hb). cbn.
repeat split. intros Hne. eauto.
Qed.









End ExecutorFacts.

Lemma success_iff_2xx_witness :
  let r := run_single_chat sample_loads sample_dumps breaking_client
                           sample_server 0 1 (lit "Hello") streaming_cfg in
  status_code r = None \/
  exists s, status_code r = Some s /\ ~ 200 <= s < 300.
Proof.
  intros r.
  destruct (success_iff_2xx sample_loads sample_dumps breaking_client
              sample_server 0 1 (lit "Hello") streaming_cfg) as [_ H].
  apply H. reflexivity.
Defined.

Lemma exception_outcome_witness :
  let r := run_single_chat sample_loads sample_dumps breaking_client
                           sample_server 0 1 (lit "Hello") streaming_cfg in
  success r = false /\ status_code r = None /\
  total_ms r = Some (elapsed_ms 0 (3 # 10)) /\
  error r = Some (lit "All connection attempts failed") /\
  ttft_ms r = Some (elapsed_ms 0 (1 # 10)) /\ output_chars r = 2.
Proof.
  intros r.
  destruct (exception_outcome sample_loads sample_dumps breaking_client
              sample_server 0 1 (lit "Hello") streaming_cfg refused (3 # 10))
    as (H1 & H2 & H3 & H4 & _).
  - right. right. eexists. vm_compute. reflexivity.
  - repeat split; try assumption; reflexivity.
Defined.

(** C5 as stated fails: a timeout whose exception has no message leaves an
    empty error text in the outcome. *)
Lemma empty_error_counterexample :
  let r := run_single_chat sample_loads sample_dumps timing_out_client
                           sample_server 0 1 (lit "Hello") streaming_cfg in
  success r = false /\ status_code r = None /\
  total_ms r = Some (elapsed_ms 10 70) /\
  error r = Some [].
Proof. cbv zeta. repeat split. Qed.



(** ** Scheduler *)

Lemma flat_map_length_const {A B} (f : A -> list B) (l : list A) (c : nat) :
  (forall x, List.length (f x) = c) ->
  List.length (flat_map f l) = (List.length l * c)%nat.
Proof.
  intros Hf. induction l as [| x l IH]; cbn; [reflexivity |].
  now rewrite length_app, Hf, IH.
Qed.

Lemma range_length lo hi : List.length (range lo hi) = Z.to_nat (hi - lo).
Proof. unfold range. now rewrite length_map, length_seq. Qed.

Lemma enumerate_length {A} (l : list A) :
  List.length (enumerate l) = List.length l.
Proof.
  unfold enumerate. rewrite length_combine, length_map, length_seq.
  apply Nat.min_id.
Qed.

Lemma submitted_length servers prompts iterations :
  List.length (submitted servers prompts iterations)
  = (List.length servers * (List.length prompts * Z.to_nat iterations))%nat.
Proof.
  unfold submitted. apply flat_map_length_const. intros srv.
  rewrite <- (enumerate_length prompts).
  apply flat_map_length_const. intros ip.
  rewrite length_map, range_length. f_equal. lia.
Qed.

Lemma nth_error_cut {A} (l : list A) (i : nat) (x : A) :
  nth_error l i = Some x -> l = firstn i l ++ x :: skipn (S i) l.
Proof.
  revert i. induction l as [| y l IH]; intros [| i]; cbn; try discriminate.
  - now intros [= ->].
  - intros H. f_equal. now apply IH.
Qed.

Section SchedulerFacts.

Variable json_loads : pystr -> option json.
Variable json_dumps : json -> pystr.
Variable net : trial -> AsyncClient.
Variable cfg : RequestConfig.

Local Abbreviation outcome := (bound_request json_loads json_dumps net cfg).
Local Abbreviation turn := (step json_loads json_dumps net cfg).
Local Abbreviation reach := (reachable json_loads json_dumps net cfg).
Local Abbreviation permits_ok := (@permits_ok).
Local Abbreviation accounted := (accounted json_loads json_dumps net cfg).

Lemma step_permits k st st' :
  permits_ok k st -> turn st st' -> permits_ok k st'.
Proof.
  unfold permits_ok, len. intros [H0 Hk] Hstep.
  destruct Hstep; cbn in *; rewrite ?length_app in *; cbn in *; lia.
Qed.

Lemma step_accounted all st st' :
  accounted all st -> turn st st' -> accounted all st'.
Proof.
  unfold accounted. intros Hacc Hstep.
  destruct Hstep; cbn in *; rewrite <- Hacc;
    rewrite ?map_app, <- ?app_assoc; cbn.
  - reflexivity.
  - apply Permutation_app_head, Permutation_middle.
Qed.

Lemma reachable_permits k st0 st :
  permits_ok k st0 -> reach st0 st -> permits_ok k st.
Proof. induction 2; eauto using step_permits. Qed.

Lemma reachable_accounted all st0 st :
  accounted all st0 -> reach st0 st -> accounted all st.
Proof. induction 2; eauto using step_accounted. Qed.

Lemma start_permits servers prompts iterations k :
  0 <= k -> permits_ok k (start servers prompts iterations k).
Proof. unfold permits_ok, start, len. cbn. lia. Qed.

Lemma start_accounted servers prompts iterations k :
  accounted (submitted servers prompts iterations)
            (start servers prompts iterations k).
Proof. unfold accounted, start. cbn. reflexivity. Qed.

(** The turns of the executable loop are turns of the relation. *)
Lemma acquire_step st st' :
  acquire st = Some st' -> turn st st'.
Proof.
  unfold acquire. destruct st as [v w r f]; cbn.
  destruct w as [| t w]; [discriminate |].
  destruct (Z.ltb_spec 0 v); [| discriminate].
  intros [= <-]. now constructor.
Qed.

Lemma release_step i st st' :
  release json_loads json_dumps net cfg i st = Some st' -> turn st st'.
Proof.
  unfold release. destruct st as [v w r f]; cbn.
  destruct (nth_error r i) as [t |] eqn:Ht; [| discriminate].
  intros [= <-]. rewrite (nth_error_cut r i t Ht) at 1. constructor.
Qed.

Lemma next_step c st st' :
  next json_loads json_dumps net cfg c st = Some st' -> turn st st'.
Proof.
  unfold next. destruct c as [| i].
  - destruct (acquire st) eqn:Ha.
    + intros [= <-]. now apply acquire_step.
    + apply release_step.
  - destruct (release _ _ _ _ _ st) eqn:Hr.
    + intros [= <-]. now apply release_step in Hr.
    + apply acquire_step.
Qed.

Lemma next_reachable c st0 st st' :
  reach st0 st -> next json_loads json_dumps net cfg c st = Some st' ->
  reach st0 st'.
Proof. intros Hr Hn. eapply reach_step; [exact Hr | now apply next_step in Hn]. Qed.

(** With at least one permit in total, some turn is always possible until
    every trial has completed. *)
Lemma next_progress k c st :
  1 <= k -> permits_ok k st ->
  waiting st ++ running st <> [] ->
  exists st', next json_loads json_dumps net cfg c st = Some st'.
Proof.
  intros Hk [H0 Hp] Hne. destruct st as [v w r f]. cbn in *.
  assert (Hrel : r <> [] -> forall i,
            exists st', release json_loads json_dumps net cfg
                                (Nat.modulo i (List.length r))
                                (mk_loop v w r f) = Some st').
  { intros Hr i. unfold release. cbn.
    destruct (nth_error r (Nat.modulo i (List.length r))) eqn:Hn; [eauto |].
    apply nth_error_None in Hn.
    assert (List.length r <> 0)%nat by (destruct r; cbn; congruence).
    pose proof (Nat.mod_upper_bound i (List.length r)). lia. }
  assert (Hacq : r = [] ->
            exists st', acquire (mk_loop v w r f) = Some st').
  { intros ->. unfold acquire. cbn in *. unfold len in Hp. cbn in Hp.
    destruct w as [| t w]; [cbn in Hne; congruence |].
    destruct (Z.ltb_spec 0 v); [eauto | lia]. }
  unfold next. destruct c as [| i].
  - destruct (acquire (mk_loop v w r f)) eqn:Ha; [eauto |].
    destruct r as [| t r]; [destruct (Hacq eq_refl); congruence |].
    unfold release. cbn. eauto.
  - destruct r as [| t r].
    + destruct (Hacq eq_refl) as [st' Hst']. cbn. rewrite Hst'.
      unfold release. cbn. destruct i; cbn; eauto.
    + destruct (Hrel ltac:(discriminate) i) as [st' Hst'].
      cbn [running]. rewrite Hst'. eauto.
Qed.

Lemma step_turns_left st st' :
  turn st st' -> turns_left st = S (turns_left st').
Proof.
  intros H. destruct H; unfold turns_left; cbn; rewrite !length_app; cbn; lia.
Qed.

Lemma event_loop_returns k sched (all : list trial) fuel st :
  1 <= k -> permits_ok k st -> accounted all st ->
  (turns_left st <= fuel)%nat ->
  exists results,
    event_loop json_loads json_dumps net cfg fuel sched st = Some results /\
    Permutation results (map outcome all).
Proof.
  intros Hk. revert st.
  induction fuel as [| fuel IH]; intros st Hp Hacc Hfuel.
  - unfold turns_left in Hfuel.
    destruct st as [v [| t w] [| t' r] f]; cbn in *; try lia.
    exists f. split; [reflexivity |].
    unfold accounted in Hacc. cbn in Hacc. now rewrite app_nil_r in Hacc.
  - destruct (waiting st ++ running st) as [| t l] eqn:Hwr.
    + apply app_eq_nil in Hwr. destruct Hwr as [Hw Hr].
      exists (finished st). cbn. rewrite Hw, Hr. split; [reflexivity |].
      unfold accounted in Hacc. rewrite Hw, Hr in Hacc. cbn in Hacc.
      now rewrite app_nil_r in Hacc.
    + destruct (next_progress k (sched st) st Hk Hp) as [st' Hn];
        [rewrite Hwr; discriminate |].
      pose proof (next_step _ _ _ Hn) as Hstep.
      destruct (IH st') as (results & Hres & Hperm).
      * eapply step_permits; eauto.
      * eapply step_accounted; eauto.
      * rewrite (step_turns_left _ _ Hstep) in Hfuel. lia.
      * exists results. split; [| exact Hperm].
        cbn. rewrite Hn.
        destruct (waiting st), (running st); try discriminate; exact Hres.
Qed.

Lemma event_loop_more_fuel sched fuel fuel' st results :
  event_loop json_loads json_dumps net cfg fuel sched st = Some results ->
  (fuel <= fuel')%nat ->
  event_loop json_loads json_dumps net cfg fuel' sched st = Some results.
Proof.
  revert fuel' st.
  induction fuel as [| fuel IH]; intros fuel' st Hres Hle.
  - destruct fuel'; [exact Hres |]. cbn in *.
    destruct (waiting st), (running st); try discriminate; exact Hres.
  - destruct fuel' as [| fuel']; [lia |]. cbn in *.
    destruct (waiting st), (running st); try exact Hres;
      (destruct (next _ _ _ _ _ st) as [st' |]; [| discriminate];
       apply IH; [exact Hres | lia]).
Qed.

(** C3: for an iteration count [n >= 0] and a concurrency limit of at
    least 1, [run_benchmark] returns, and what it returns are exactly
    [|servers| * |prompts| * n] outcomes: the outcomes of the submitted
    (server, prompt, repetition) triples, one for each, in some order -
    whatever the trials themselves do. *)
Theorem run_benchmark_exact sched servers prompts iterations concurrency :
0 <= iterations -> 1 <= concurrency ->
exists results,
  (forall fuel,
     (2 * List.length (submitted servers prompts iterations) <= fuel)%nat ->
     run_benchmark json_loads json_dumps net cfg fuel sched
                   servers prompts iterations concurrency
     = Some (Ok results)) /\
  len results = len servers * len prompts * iterations /\
  Permutation results (map (bound_request json_loads json_dumps net cfg) (submitted servers prompts iterations)).
Proof.
intros Hn Hk.
set (all := submitted servers prompts iterations).
set (st0 := start servers prompts iterations concurrency).
destruct (event_loop_returns concurrency sched all (2 * List.length all) st0)
  as (results & Hres & Hperm); try assumption.
- apply start_permits. lia.
- apply start_accounted.
- unfold turns_left, st0, start. cbn. fold all. lia.
- exists results. repeat split; [| | exact Hperm].
  + intros fuel Hfuel. unfold run_benchmark.
    destruct (Z.ltb_spec concurrency 0); [lia |].
    fold st0. now rewrite (event_loop_more_fuel _ _ fuel _ _ Hres Hfuel).
  + unfold len. rewrite (Permutation_length Hperm), length_map.
    unfold all. rewrite submitted_length. lia.
Qed.

(** C9: with a concurrency limit [k >= 1], in every state that the event
    loop can reach at most [k] trials are inside their request/response
    cycle; the counter of the semaphore is [k] minus their number; and
    once [k] trials are running, the only possible turn is the completion
    of one of them, so that the waiting trials stay suspended until a slot
    is free. *)
Theorem at_most_k_running servers prompts iterations concurrency st :
1 <= concurrency ->
reachable json_loads json_dumps net cfg
  (start servers prompts iterations concurrency) st ->
len (running st) <= concurrency /\
sem_value st = concurrency - len (running st) /\
(len (running st) = concurrency ->
 forall st', step json_loads json_dumps net cfg st st' ->
   waiting st' = waiting st /\ len (running st') = concurrency - 1).
Proof.
intros Hk Hreach.
assert (Hp : permits_ok concurrency st).
{ eapply reachable_permits; [| exact Hreach]. apply start_permits. lia. }
destruct Hp as [H0 Hp].
split; [lia |]. split; [lia |].
intros Hfull st' Hstep.
destruct Hstep; cbn in *; unfold len in *; rewrite ?length_app in *;
  cbn in *; [lia | split; [reflexivity | lia]].
Qed.

End SchedulerFacts.

Lemma run_benchmark_exact_witness :
  exists results,
    run_benchmark sample_loads sample_dumps sample_net streaming_cfg
                  8 first_come [sample_server] [lit "a"; lit "b"] 2 1
    = Some (Ok results) /\
    len results = 4.
Proof.
  destruct (run_benchmark_exact sample_loads sample_dumps sample_net
              streaming_cfg first_come [sample_server] [lit "a"; lit "b"] 2 1)
    as (results & Hrun & Hlen & _); [lia | lia |].
  exists results. split; [apply Hrun; vm_compute; lia | exact Hlen].
Defined.

Lemma at_most_k_running_witness :
  len (running after_one_admission) <= 1 /\
  sem_value after_one_admission = 1 - len (running after_one_admission).
Proof.
  destruct (at_most_k_running sample_loads sample_dumps sample_net
              streaming_cfg [sample_server] [lit "a"; lit "b"] 2 1
              after_one_admission) as (H1 & H2 & _).
  - lia.
  - apply reach_step with (st := sample_start); [apply reach_start |].
    apply acquire_step. reflexivity.
  - split; [exact H1 | exact H2].
Defined.

(** ** Aggregator *)

Lemma inject_Z_nonzero (z : Z) : z <> 0 -> Qeq_bool (inject_Z z) 0 = false.
Proof.
  intros Hz. destruct (Qeq_bool _ _) eqn:H; [| reflexivity].
  apply Qeq_bool_iff in H. unfold Qeq in H. cbn in H. lia.
Qed.

Lemma len_cons_nonzero {A} (x : A) (l : list A) : len (x :: l) <> 0.
Proof. unfold len. cbn. lia. Qed.

Lemma mean_returns (l : list Q) :
  exists v, mean l = Ok v /\ (l = [] -> v = NaN).
Proof.
  destruct l as [| x l]; cbn [mean]; [eauto |].
  unfold truediv. rewrite inject_Z_nonzero by apply len_cons_nonzero.
  cbn [bind]. eexists; split; [reflexivity | discriminate].
Qed.

Lemma mean_int_returns (l : list Z) :
  exists v, mean_int l = Ok v /\ (l = [] -> v = NaN).
Proof.
  destruct l as [| x l]; cbn [mean_int]; [eauto |].
  unfold truediv. rewrite inject_Z_nonzero by apply len_cons_nonzero.
  cbn [bind]. eexists; split; [reflexivity | discriminate].
Qed.

Lemma percentile_or_nan_returns (l : list Q) (p : Q) :
  (0 <= p)%Q -> (p <= 1)%Q ->
  exists v, percentile_or_nan l p = Ok v /\ (l = [] -> v = NaN).
Proof.
  intros Hp0 Hp1. destruct l as [| x l]; cbn [percentile_or_nan]; [eauto |].
  rewrite percentile_value by (assumption || discriminate).
  eexists; split; [reflexivity | discriminate].
Qed.

Lemma rate_returns (items : list SingleResult) :
  exists v,
    truediv (inject_Z (len (filter success items)))
            (inject_Z (Z.max 1 (len items))) = Ok v.
Proof. unfold truediv. rewrite inject_Z_nonzero by lia. eauto. Qed.

Lemma latencies_qualifying items : latencies items = qualifying total_ms items.
Proof.
  unfold latencies, qualifying.
  induction items as [| i items IH]; cbn; [reflexivity |].
  destruct (success i), (total_ms i) eqn:Ht; cbn; rewrite ?Ht; cbn;
    now rewrite IH.
Qed.

Lemma ttfts_qualifying items : ttfts items = qualifying ttft_ms items.
Proof.
  unfold ttfts, qualifying.
  induction items as [| i items IH]; cbn; [reflexivity |].
  destruct (success i), (ttft_ms i) eqn:Ht; cbn; rewrite ?Ht; cbn;
    now rewrite IH.
Qed.

Lemma half_in_unit : (0 <= 1 # 2)%Q /\ (1 # 2 <= 1)%Q.
Proof. split; unfold Qle; cbn; lia. Qed.

Lemma p95_in_unit : (0 <= 95 # 100)%Q /\ (95 # 100 <= 1)%Q.
Proof. split; unfold Qle; cbn; lia. Qed.

(** *** Grouping *)

Lemma key_eqb_eq (a b : group_key) : key_eqb a b = true <-> a = b.
Proof.
  destruct a as [a1 a2], b as [b1 b2]. unfold key_eqb. cbn.
  rewrite andb_true_iff, !pystr_eqb_eq. split.
  - now intros [-> ->].
  - now intros [= -> ->].
Qed.

Lemma key_eqb_neq (a b : group_key) : key_eqb a b = false <-> a <> b.
Proof.
  rewrite <- key_eqb_eq. destruct (key_eqb a b); split; congruence.
Qed.

Lemma group_append_keys groups k r k' :
  In k' (map fst (group_append groups k r))
  <-> k' = k \/ In k' (map fst groups).
Proof.
  induction groups as [| [k0 items0] groups IH]; cbn.
  - intuition congruence.
  - destruct (key_eqb k0 k) eqn:Hk; cbn.
    + apply key_eqb_eq in Hk. subst k0. intuition congruence.
    + rewrite IH. intuition congruence.
Qed.

Lemma group_append_nodup groups k r :
  NoDup (map fst groups) -> NoDup (map fst (group_append groups k r)).
Proof.
  induction groups as [| [k0 items0] groups IH]; cbn; intros Hnd.
  - repeat constructor. intros [].
  - inversion Hnd as [| ? ? Hnotin Hnd']; subst.
    destruct (key_eqb k0 k) eqn:Hk; cbn.
    + now constructor.
    + constructor; [| now apply IH].
      rewrite group_append_keys. intros [-> | Hin]; [| contradiction].
      apply key_eqb_neq in Hk. congruence.
Qed.

Lemma group_append_in groups k r k' items' :
  NoDup (map fst groups) ->
  In (k', items') (group_append groups k r) ->
  (k' <> k /\ In (k', items') groups) \/
  (k' = k /\ exists items, items' = items ++ [r] /\
     (In (k, items) groups \/ (items = [] /\ ~ In k (map fst groups)))).
Proof.
  induction groups as [| [k0 items0] groups IH]; cbn; intros Hnd Hin.
  - destruct Hin as [[= <- <-] | []]. right. split; [reflexivity |].
    exists []. split; [reflexivity |]. right. split; [reflexivity |]. tauto.
  - inversion Hnd as [| ? ? Hnotin Hnd']; subst.
    destruct (key_eqb k0 k) eqn:Hk.
    + apply key_eqb_eq in Hk. subst k0.
      destruct Hin as [[= <- <-] | Hin].
      * right. split; [reflexivity |]. exists items0. auto.
      * left. split; [| now right].
        intros ->. apply Hnotin. now apply (in_map fst) in Hin.
    + apply key_eqb_neq in Hk.
      destruct Hin as [[= <- <-] | Hin]; [left; auto |].
      destruct (IH Hnd' Hin) as [[Hne Hin'] | [-> (items & -> & Hcase)]].
      * left. auto.
      * right. split; [reflexivity |]. exists items. split; [reflexivity |].
        destruct Hcase as [Hin' | [-> Hnot]]; [auto |].
        right. split; [reflexivity |]. intros [Heq | Hin']; auto.
Qed.

Lemma members_app k a b : members k (a ++ b) = members k a ++ members k b.
Proof. apply filter_app. Qed.

Lemma members_none k seen :
  (forall r, In r seen -> key_of r <> k) -> members k seen = [].
Proof.
  induction seen as [| r seen IH]; intros H; cbn; [reflexivity |].
  assert (Hk : key_eqb k (key_of r) = false).
  { apply key_eqb_neq. intros ->. apply (H r); [now left | reflexivity]. }
  rewrite Hk. apply IH. intros r' Hr'. apply H. now right.
Qed.

Lemma group_append_grouped groups seen r :
  grouped groups seen ->
  grouped (group_append groups (key_of r) r) (seen ++ [r]).
Proof.
  intros (Hnd & Hitems & Hkeys). split; [| split].
  - now apply group_append_nodup.
  - intros k items Hin. rewrite members_app. cbn.
    destruct (group_append_in _ _ _ _ _ Hnd Hin)
      as [[Hne Hin'] | [-> (items0 & -> & Hcase)]].
    + apply key_eqb_neq in Hne. rewrite Hne, app_nil_r. now apply Hitems.
    + assert (Hk : key_eqb (key_of r) (key_of r) = true)
        by now apply key_eqb_eq.
      rewrite Hk. split; [| now destruct items0].
      destruct Hcase as [Hin' | [-> Hnot]].
      * now destruct (Hitems _ _ Hin') as [<- _].
      * rewrite members_none; [reflexivity |].
        intros r' Hr' Heq. apply Hnot. rewrite <- Heq. now apply Hkeys.
  - intros r' Hr'. apply group_append_keys.
    apply in_app_or in Hr'. destruct Hr' as [Hr' | [<- | []]]; auto.
Qed.

Lemma group_fold rest groups seen :
  grouped groups seen ->
  grouped (fold_left (fun g r => group_append g (server r, r_model r) r)
                     rest groups)
          (seen ++ rest).
Proof.
  revert groups seen.
  induction rest as [| r rest IH]; intros groups seen H; cbn.
  - now rewrite app_nil_r.
  - replace (seen ++ r :: rest) with ((seen ++ [r]) ++ rest)
      by (now rewrite <- app_assoc).
    apply IH. now apply (group_append_grouped groups seen r).
Qed.

Lemma group_grouped results : grouped (group results) results.
Proof.
  apply (group_fold results [] []).
  split; [constructor | split; [intros k items [] | intros r []]].
Qed.

(** Every entry of the result of [aggregate] is the summary of a group. *)
Lemma summarize_all_entries groups summary key s :
  summarize_all groups = Ok summary -> In (key, s) summary ->
  exists items, In (key, items) groups /\ summarize items = Ok s.
Proof.
  revert summary.
  induction groups as [| [k items] groups IH]; cbn; intros summary Hs Hin.
  - injection Hs as <-. destruct Hin.
  - destruct (summarize items) as [s0 |] eqn:Hs0; [| discriminate].
    destruct (summarize_all groups) as [rest |]; [| discriminate].
    cbn in Hs. injection Hs as <-.
    destruct Hin as [[= <- <-] | Hin].
    + exists items. auto.
    + destruct (IH rest eq_refl Hin) as (items' & Hin' & Hs').
      exists items'. auto.
Qed.

Lemma summarize_all_returns groups :
  (forall k items, In (k, items) groups -> exists s, summarize items = Ok s) ->
  exists summary, summarize_all groups = Ok summary.
Proof.
  induction groups as [| [k items] groups IH]; cbn; intros H; [eauto |].
  destruct (H k items) as [s Hs]; [now left |].
  destruct IH as [rest Hrest]; [intros; eapply H; right; eauto |].
  rewrite Hs, Hrest. cbn. eauto.
Qed.

Lemma aggregate_entry results summary key s :
  aggregate results = Ok summary -> In (key, s) summary ->
  In (key, members key results) (group results) /\
  members key results <> [] /\
  summarize (members key results) = Ok s.
Proof.
  intros Hagg Hin.
  destruct (summarize_all_entries _ _ _ _ Hagg Hin) as (items & Hg & Hs).
  destruct (group_grouped results) as (_ & Hitems & _).
  destruct (Hitems _ _ Hg) as [-> Hne]. auto.
Qed.

Lemma qualifying_members_nil field key results :
  qualifying field results = [] ->
  qualifying field (members key results) = [].
Proof.
  unfold qualifying, members.
  induction results as [| r results IH]; cbn; [reflexivity |].
  destruct (success r && is_defined (field r)) eqn:Hq; cbn.
  - destruct (field r) eqn:Hf; [discriminate |].
    rewrite andb_false_r in Hq. discriminate.
  - intros H. destruct (key_eqb key (key_of r)); cbn; [rewrite Hq |];
      now apply IH.
Qed.

(** What [summarize] computes before the two throughput figures, and that
    only these can raise. *)
Lemma summarize_cases (items : list SingleResult) :
  exists rate total_avg ttft_avg chars_avg bytes_avg
         ttft_p50 ttft_p95 total_p50 total_p95,
    mean (latencies items) = Ok total_avg /\
    mean (ttfts items) = Ok ttft_avg /\
    mean_int (out_chars items) = Ok chars_avg /\
    mean_int (out_bytes items) = Ok bytes_avg /\
    percentile_or_nan (ttfts items) (1 # 2) = Ok ttft_p50 /\
    percentile_or_nan (ttfts items) (95 # 100) = Ok ttft_p95 /\
    percentile_or_nan (latencies items) (1 # 2) = Ok total_p50 /\
    percentile_or_nan (latencies items) (95 # 100) = Ok total_p95 /\
    summarize items =
    (cps <- per_sec chars_avg total_avg (latencies items) ;;
     bps <- per_sec bytes_avg total_avg (latencies items) ;;
     Ok (mk_summary (len items) rate ttft_avg ttft_p50 ttft_p95
                    total_avg total_p50 total_p95 chars_avg bytes_avg
                    cps bps)).
Proof.
  destruct half_in_unit as [Hh0 Hh1]. destruct p95_in_unit as [Hn0 Hn1].
  destruct (rate_returns items) as [rate Hrate].
  destruct (mean_returns (latencies items)) as (ta & Hta & _).
  destruct (mean_returns (ttfts items)) as (fa & Hfa & _).
  destruct (mean_int_returns (out_chars items)) as (ca & Hca & _).
  destruct (mean_int_returns (out_bytes items)) as (ba & Hba & _).
  destruct (percentile_or_nan_returns (ttfts items) _ Hh0 Hh1)
    as (f50 & Hf50 & _).
  destruct (percentile_or_nan_returns (ttfts items) _ Hn0 Hn1)
    as (f95 & Hf95 & _).
  destruct (percentile_or_nan_returns (latencies items) _ Hh0 Hh1)
    as (t50 & Ht50 & _).
  destruct (percentile_or_nan_returns (latencies items) _ Hn0 Hn1)
    as (t95 & Ht95 & _).
  exists rate, ta, fa, ca, ba, f50, f95, t50, t95.
  repeat (split; [assumption |]).
  unfold summarize.
  rewrite Hrate, Hta, Hfa, Hca, Hba, Hf50, Hf95, Ht50, Ht95. reflexivity.
Qed.

(** The timing statistics of one group. *)
Lemma summarize_timing_stats (items : list SingleResult) :
  (qualifying total_ms items = [] -> exists s, summarize items = Ok s) /\
  forall s, summarize items = Ok s ->
    (mean (qualifying ttft_ms items) = Ok (ttft_ms_avg s) /\
     percentile_or_nan (qualifying ttft_ms items) (1 # 2)
     = Ok (ttft_ms_p50 s) /\
     percentile_or_nan (qualifying ttft_ms items) (95 # 100)
     = Ok (ttft_ms_p95 s)) /\
    (mean (qualifying total_ms items) = Ok (total_ms_avg s) /\
     percentile_or_nan (qualifying total_ms items) (1 # 2)
     = Ok (total_ms_p50 s) /\
     percentile_or_nan (qualifying total_ms items) (95 # 100)
     = Ok (total_ms_p95 s)) /\
    (qualifying ttft_ms items = [] ->
     ttft_ms_avg s = NaN /\ ttft_ms_p50 s = NaN /\ ttft_ms_p95 s = NaN /\
     ttft_ms_avg s <> Num 0) /\
    (qualifying total_ms items = [] ->
     total_ms_avg s = NaN /\ total_ms_p50 s = NaN /\ total_ms_p95 s = NaN /\
     total_ms_avg s <> Num 0).
Proof.
  destruct (summarize_cases items)
    as (rate & ta & fa & ca & ba & f50 & f95 & t50 & t95
        & Hta & Hfa & Hca & Hba & Hf50 & Hf95 & Ht50 & Ht95 & Hsum).
  rewrite latencies_qualifying in *. rewrite ttfts_qualifying in *.
  split.
  - intros Hempty. rewrite Hsum, Hempty. cbn. eauto.
  - intros s Hs. rewrite Hsum in Hs.
    destruct (per_sec ca ta _) as [cps |]; [| discriminate].
    destruct (per_sec ba ta _) as [bps |]; [| discriminate].
    cbn in Hs. injection Hs as <-. cbn.
    split; [tauto |]. split; [tauto |]. split.
    + intros Hempty. rewrite Hempty in *. cbn in *.
      injection Hfa as <-. injection Hf50 as <-. injection Hf95 as <-.
      repeat split. discriminate.
    + intros Hempty. rewrite Hempty in *. cbn in *.
      injection Hta as <-. injection Ht50 as <-. injection Ht95 as <-.
      repeat split. discriminate.
Qed.

Lemma summarize_all_keys groups summary :
  summarize_all groups = Ok summary -> map fst summary = map fst groups.
Proof.
  revert summary.
  induction groups as [| [k items] groups IH]; cbn; intros summary Hs.
  - now injection Hs as <-.
  - destruct (summarize items) as [s |]; [| discriminate].
    destruct (summarize_all groups) as [rest |]; [| discriminate].
    cbn in Hs. injection Hs as <-. cbn. f_equal. now apply IH.
Qed.

Lemma mean_cons (x : Q) (l : list Q) :
  mean (x :: l) = Ok (Num (sum (x :: l) / inject_Z (len (x :: l)))).
Proof.
  cbn [mean]. unfold truediv.
  now rewrite inject_Z_nonzero by apply len_cons_nonzero.
Qed.

Lemma per_sec_cons (avg : pyfloat) (t x : Q) (l : list Q) :
  per_sec avg (Num t) (x :: l) = float_div avg (Num (t / 1000)).
Proof. reflexivity. Qed.

Lemma sum_from (l : list Q) (a : Q) :
  Forall (fun x => (0 < x)%Q) l -> (a <= fold_left Qplus l a)%Q.
Proof.
  intros H. revert a. induction H as [| x l Hx _ IH]; intros a; cbn.
  - apply Qle_refl.
  - eapply Qle_trans; [| apply IH]. lra.
Qed.

Lemma sum_positive (l : list Q) :
  l <> [] -> Forall (fun x => (0 < x)%Q) l -> (0 < sum l)%Q.
Proof.
  intros Hne H. destruct H as [| x l Hx Hl]; [congruence |].
  unfold sum. cbn. eapply Qlt_le_trans; [| now apply sum_from]. lra.
Qed.

Lemma mean_seconds_zero (total : Q) (n : Z) :
  n <> 0 -> ((total / inject_Z n / 1000 == 0)%Q <-> (total == 0)%Q).
Proof.
  intros Hn.
  assert (Hq : ~ (inject_Z n == 0)%Q).
  { unfold Qeq. cbn. lia. }
  split; intros H.
  - assert (Hs : (total == total / inject_Z n / 1000 * inject_Z n * 1000)%Q)
      by (field; exact Hq).
    rewrite Hs, H. ring.
  - rewrite H. field. exact Hq.
Qed.

(** The only step of [summarize] that can raise is the throughput, and it
    raises exactly on a zero sum of the qualifying total durations. *)
Lemma summarize_raises items :
  (latencies items <> [] /\ (sum (latencies items) == 0)%Q ->
   summarize items = Raise zero_division) /\
  (~ (latencies items <> [] /\ (sum (latencies items) == 0)%Q) ->
   exists s, summarize items = Ok s).
Proof.
  destruct (summarize_cases items)
    as (rate & ta & fa & ca & ba & f50 & f95 & t50 & t95
        & Hta & _ & _ & _ & _ & _ & _ & _ & Hsum).
  rewrite Hsum. clear Hsum.
  destruct (latencies items) as [| x l] eqn:Hlat.
  - split; [intros [Hne _]; congruence | intros _; cbn; eauto].
  - rewrite mean_cons in Hta. injection Hta as <-.
    rewrite !per_sec_cons.
    set (t := (sum (x :: l) / inject_Z (len (x :: l)) / 1000)%Q).
    pose proof (mean_seconds_zero (sum (x :: l)) (len (x :: l))
                  (len_cons_nonzero x l)) as Hz.
    fold t in Hz. unfold float_div.
    destruct (Qeq_bool t 0) eqn:Ht.
    + split; [reflexivity |]. intros Hn. exfalso. apply Hn.
      split; [discriminate |]. apply Hz. now apply Qeq_bool_iff.
    + split; [| intros _; cbn; eauto].
      intros [_ H0]. apply Hz in H0. apply Qeq_bool_iff in H0. congruence.
Qed.

Lemma latencies_members_positive results key :
  (forall r t, In r results -> success r = true -> total_ms r = Some t ->
               (0 < t)%Q) ->
  Forall (fun x => (0 < x)%Q) (latencies (members key results)).
Proof.
  intros H. unfold latencies, members. apply Forall_forall. intros x Hx.
  apply in_flat_map in Hx. destruct Hx as (r & Hr & Hx).
  apply filter_In in Hr. destruct Hr as [Hr _].
  destruct (success r) eqn:Hs; [| destruct Hx].
  destruct (total_ms r) as [t |] eqn:Ht; [| destruct Hx].
  destruct Hx as [<- | []]. now apply (H r).
Qed.

(** With positive qualifying durations no group has a zero mean, and every
    group is summarised. *)
Lemma aggregate_returns (results : list SingleResult) :
  (forall r t, In r results -> success r = true -> total_ms r = Some t ->
               (0 < t)%Q) ->
  exists summary, aggregate results = Ok summary.
Proof.
  intros Hpos. apply summarize_all_returns. intros k items Hin.
  destruct (group_grouped results) as (_ & Hitems & _).
  destruct (Hitems _ _ Hin) as [-> _].
  apply summarize_raises. intros [Hne Hzero].
  pose proof (sum_positive _ Hne (latencies_members_positive _ k Hpos)).
  lra.
Qed.

Lemma durations_resolved_positive (results : list SingleResult) :
  durations_resolved results ->
  forall r t, In r results -> success r = true -> total_ms r = Some t ->
              (0 < t)%Q.
Proof.
  intros H r t Hin Hs Ht. pose proof (H r t Hin Hs Ht) as Hle.
  eapply Qlt_le_trans; [| exact Hle]. reflexivity.
Qed.

Lemma no_qualifying_resolved (results : list SingleResult) :
  qualifying total_ms results = [] -> durations_resolved results.
Proof.
  intros Hempty r t Hin Hs Ht. exfalso.
  assert (Hq : In t (qualifying total_ms results)).
  { unfold qualifying. apply in_flat_map. exists r. split.
    - apply filter_In. split; [exact Hin |]. now rewrite Hs, Ht.
    - rewrite Ht. now left. }
  rewrite Hempty in Hq. destruct Hq.
Qed.

(** Every outcome finds the entry of its group in the summary. *)
Lemma aggregate_covers results summary r :
  aggregate results = Ok summary -> In r results ->
  exists s, In (key_of r, s) summary.
Proof.
  intros Hagg Hin.
  destruct (group_grouped results) as (_ & _ & Hkeys).
  pose proof (Hkeys r Hin) as Hk.
  rewrite <- (summarize_all_keys _ _ Hagg) in Hk.
  apply in_map_iff in Hk. destruct Hk as ([k s] & Hfst & Hs).
  cbn in Hfst. subst k. eauto.
Qed.

(** C6: when [aggregate] produces its summary, every outcome's group has
    exactly one entry in it, and in every entry the time-to-first-token
    and total-duration statistics are the mean and the percentiles of the
    group's outcomes with [success = true] and the respective timing field
    defined, and of nothing else; when that sub-population is empty all
    three are the NaN sentinel, not zero.  [aggregate] produces its summary
    whenever the sizes are within [sys.maxsize] and no qualifying total
    duration is below a nanosecond, in particular when there is no
    qualifying total duration at all. *)
Theorem timing_stats_over_qualifying (results : list SingleResult) :
  (sizes_fit results ->
   qualifying total_ms results = [] \/ durations_resolved results ->
   exists summary, aggregate results = Ok summary) /\
  forall summary, aggregate results = Ok summary ->
    NoDup (map fst summary) /\
    (forall r, In r results -> exists s, In (key_of r, s) summary) /\
    forall key s, In (key, s) summary ->
      let items := members key results in
      items <> [] /\
      (mean (qualifying ttft_ms items) = Ok (ttft_ms_avg s) /\
       percentile_or_nan (qualifying ttft_ms items) (1 # 2)
       = Ok (ttft_ms_p50 s) /\
       percentile_or_nan (qualifying ttft_ms items) (95 # 100)
       = Ok (ttft_ms_p95 s)) /\
      (mean (qualifying total_ms items) = Ok (total_ms_avg s) /\
       percentile_or_nan (qualifying total_ms items) (1 # 2)
       = Ok (total_ms_p50 s) /\
       percentile_or_nan (qualifying total_ms items) (95 # 100)
       = Ok (total_ms_p95 s)) /\
      (qualifying ttft_ms items = [] ->
       ttft_ms_avg s = NaN /\ ttft_ms_p50 s = NaN /\ ttft_ms_p95 s = NaN /\
       ttft_ms_avg s <> Num 0) /\
      (qualifying total_ms items = [] ->
       total_ms_avg s = NaN /\ total_ms_p50 s = NaN /\ total_ms_p95 s = NaN /\
       total_ms_avg s <> Num 0).
Proof.
  split.
  - intros _ Hres. apply aggregate_returns.
    apply durations_resolved_positive.
    destruct Hres as [Hempty | Hres]; [| exact Hres].
    now apply no_qualifying_resolved.
  - intros summary Hagg. split; [| split].
    + rewrite (summarize_all_keys _ _ Hagg).
      now destruct (group_grouped results) as (Hnd & _).
    + intros r Hin. now apply (aggregate_covers results).
    + intros key s Hin items.
      destruct (aggregate_entry _ _ _ _ Hagg Hin) as (_ & Hne & Hs).
      split; [exact Hne |]. now apply summarize_timing_stats.
Qed.

Lemma timing_stats_over_qualifying_witness :
  exists summary s,
    aggregate [failed_result; failed_result] = Ok summary /\
    In (key_of failed_result, s) summary /\
    ttft_ms_avg s = NaN /\ total_ms_avg s = NaN /\ total_ms_p95 s = NaN.
Proof.
  destruct (timing_stats_over_qualifying [failed_result; failed_result])
    as [Hex Hall].
  destruct Hex as [summary Hs].
  - split; [reflexivity |].
    intros r [<- | [<- | []]]; split; split; cbn;
      first [discriminate | reflexivity].
  - now left.
  - destruct (Hall summary Hs) as (_ & Hcover & Hstats).
    destruct (Hcover failed_result (or_introl eq_refl)) as [s Hin].
    exists summary, s. split; [exact Hs |]. split; [exact Hin |].
    destruct (Hstats _ s Hin) as (_ & _ & _ & Hf & Ht).
    destruct Hf as (H1 & _); [reflexivity |].
    destruct Ht as (H2 & _ & H3 & _); [reflexivity |].
    now repeat split.
Defined.


(** C1 fails on the code: with a mean total duration of zero the division
    of line 303 raises [ZeroDivisionError] and no summary is produced. *)
Theorem aggregate_zero_duration_raises :
  latencies [instant_result] = [0%Q] /\
  mean (latencies [instant_result]) = Ok (Num (0 / 1)) /\
  aggregate [instant_result] = Raise zero_division.
Proof. repeat split. Qed.

(** ** Scenarios of the specification *)

(** Frames [Hi], [ there], [[DONE]] with status 200: eight characters, the
    time to first token taken at the first frame, the total duration at
    [[DONE]]. *)
Example streamed_greeting :
  run_single_chat sample_loads sample_dumps greeting_client
                  sample_server 0 1 (lit "Hello") streaming_cfg
  = mk_result (lit "ollama") (lit "llama3.1") 0 1 true (Some 200)
              (Some (elapsed_ms 0 (1 # 10))) (Some (elapsed_ms 0 (3 # 10)))
              8 8 None.
Proof. reflexivity. Qed.

(** One target, two prompts, two repetitions, one slot: four outcomes and
    one summary with [runs = 4]. *)
Example one_target_scenario :
  match run_benchmark sample_loads sample_dumps sample_net streaming_cfg
                      8 first_come [sample_server] [lit "a"; lit "b"] 2 1 with
  | Some (Ok results) =>
      len results = 4 /\
      match aggregate results with
      | Ok [(key, s)] => key = (lit "ollama", lit "llama3.1") /\ runs s = 4
      | _ => False
      end
  | _ => False
  end.
Proof. vm_compute. repeat split. Qed.

(** A code point outside ASCII counts once as a character and by its
    UTF-8 width as bytes; a lone surrogate is dropped from the bytes. *)
Example sizes_of_text :
  py_len (JStr [233%N; 8364%N; 128512%N; 55296%N]) = Ok 4 /\
  encode_len (JStr [233%N; 8364%N; 128512%N; 55296%N]) = Ok 9.
Proof. split; reflexivity. Qed.

(** A frame that parses to a JSON number makes [obj.get] raise; the trial
    ends on the exception path although the status was 200. *)
Example non_object_frame :
  let loads := fun _ : pystr => Some (JInt 123) in
  let client :=
    mk_client 0 None
              (fun _ => StreamOpen 200 (FLine (lit "123") 1 (FClosed 2)))
              (fun _ => PostRaise refused 1) in
  let r := run_single_chat loads sample_dumps client sample_server 0 1
                           (lit "Hello") streaming_cfg in
  success r = false /\ status_code r = None /\
  error r = Some (lit "'int' object has no attribute 'get'").
Proof. cbv zeta. repeat split. Qed.

(** A streamed line that is not JSON, here an event-stream comment, is read
    as raw text: it is counted and sets the time to first token. *)
Example raw_line_is_counted :
  let client :=
    mk_client 0 None
              (fun _ => StreamOpen 200
                          (FLine (lit ": ping") 1
                             (FLine (lit "data: [DONE]") 2 (FClosed 3))))
              (fun _ => PostRaise refused 1) in
  let r := run_single_chat sample_loads sample_dumps client sample_server 0 1
                           (lit "Hello") streaming_cfg in
  success r = true /\ output_chars r = 6 /\
  ttft_ms r = Some (elapsed_ms 0 1).
Proof. cbv zeta. repeat split. Qed.

(** * Further properties *)

(** ** Percentile estimator *)

(** X1: a sample of one element has that element as every percentile,
    whatever the fraction. *)
Theorem percentile_singleton (x p : Q) : percentile [x] p = Ok (Num x).
Proof. destruct p as [a b]. reflexivity. Qed.

(** X4: when the rank [(n-1)*p] reaches the length [n] of the sample, the
    read at index [f] is past the end and [percentile] raises
    [IndexError].  The sample has at most [2 ^ 53] elements, so that [n-1]
    is a float, and the rank is at most [2 ^ 62], so that [int(k)] is an
    index below [sys.maxsize]. *)
Theorem percentile_raises_past_end (values : list Q) (p : Q) :
  values <> [] ->
  len values <= 2 ^ 53 ->
  (inject_Z (len values) <= inject_Z (len values - 1) * p)%Q ->
  (inject_Z (len values - 1) * p <= inject_Z (2 ^ 62))%Q ->
  percentile values p = Raise index_error.
Proof.
  intros Hne _ Hk _.
  assert (Hn : 1 <= len values)
    by (unfold len; destruct values; [congruence | cbn; lia]).
  unfold percentile. destruct values as [| x values']; [congruence |].
  rewrite len_sorted.
  set (values := x :: values') in *.
  set (k := (inject_Z (len values - 1) * p)%Q) in *.
  assert (Hk0 : (0 <= k)%Q).
  { eapply Qle_trans; [| exact Hk].
    change 0%Q with (inject_Z 0). rewrite <- Zle_Qle. lia. }
  assert (Hf : len values <= py_int k).
  { rewrite (py_int_nonneg k Hk0). rewrite <- (Qfloor_Z (len values)).
    now apply Qfloor_resp_le. }
  destruct (Z.eqb_spec (py_int k) (Z.min (py_int k + 1) (len values - 1)));
    [lia |].
  rewrite list_getitem_past_end; [reflexivity |].
  now rewrite len_sorted.
Qed.

Lemma percentile_raises_past_end_witness :
  percentile [1; 2; 3]%Q (3 # 2) = Raise index_error.
Proof.
  apply percentile_raises_past_end.
  - discriminate.
  - vm_compute. discriminate.
  - unfold Qle; simpl; lia.
  - vm_compute. discriminate.
Defined.

(** ** Endpoint *)

(** X5: after the trailing slashes are stripped the base never ends in
    [/v1/], so the branch of lines 50-51 is never taken and the endpoint
    is decided by the test of line 48 alone. *)
Theorem endpoint_two_branches (self : ServerSpec) :
  let base := rstrip is_slash (base_url self) in
  endswith base (lit "/v1/") = false /\
  endswith base (lit "/") = false /\
  endpoint self =
  (if endswith base (lit "/v1") then base ++ lit "/chat/completions"
   else base ++ lit "/v1/chat/completions").
Proof.
  intros base. pose proof (stripped_not_v1_slash (base_url self)) as Hn.
  fold base in Hn. split; [exact Hn |]. split.
  - destruct (endswith base (lit "/")) eqn:H; [| reflexivity].
    apply endswith_iff in H. destruct H as [pre H].
    now apply rstrip_last in H.
  - unfold endpoint. fold base. now rewrite Hn.
Qed.

(** X6: a base URL that is empty or consists of slashes only gives the
    bare path [/v1/chat/completions]. *)
Theorem endpoint_of_slashes (self : ServerSpec) (k : nat) :
  endpoint (with_base self (slashes k)) = lit "/v1/chat/completions".
Proof.
  unfold endpoint, with_base. cbn [base_url].
  rewrite rstrip_slashes. reflexivity.
Qed.

(** ** Request payload *)

Lemma lookup_app {V} (key : pystr) (a b : list (pystr * V)) :
  lookup key (a ++ b) =
  match lookup key a with
  | Some v => Some v
  | None => lookup key b
  end.
Proof.
  induction a as [| [k v] a IH]; cbn; [reflexivity |].
  now destruct (pystr_eqb k key).
Qed.

Lemma pystr_eqb_refl (a : pystr) : pystr_eqb a a = true.
Proof. now apply pystr_eqb_eq. Qed.

Lemma pystr_eqb_false (a b : pystr) : pystr_eqb a b = false <-> a <> b.
Proof.
  rewrite <- pystr_eqb_eq. destruct (pystr_eqb a b); split; congruence.
Qed.

Lemma lookup_dict_set (d : pydict) (key key' : pystr) (v : json) :
  lookup key' (dict_set d key v) =
  if pystr_eqb key key' then Some v else lookup key' d.
Proof.
  induction d as [| [k old] d IH]; cbn.
  - reflexivity.
  - destruct (pystr_eqb k key) eqn:Hk; cbn.
    + apply pystr_eqb_eq in Hk. subst k. now destruct (pystr_eqb key key').
    + destruct (pystr_eqb k key') eqn:Hk'; [| exact IH].
      apply pystr_eqb_eq in Hk'. subst k.
      destruct (pystr_eqb key key') eqn:Hkk; [| reflexivity].
      apply pystr_eqb_eq in Hkk. subst key'.
      rewrite pystr_eqb_refl in Hk. discriminate.
Qed.

Lemma lookup_dict_update (d e : pydict) (key : pystr) :
  lookup key (dict_update d e) =
  match lookup key (rev e) with
  | Some v => Some v
  | None => lookup key d
  end.
Proof.
  unfold dict_update. revert d.
  induction e as [| [k v] e IH]; intros d; cbn; [reflexivity |].
  rewrite IH, lookup_app, lookup_dict_set. cbn.
  destruct (lookup key (rev e)); [reflexivity |].
  now destruct (pystr_eqb k key).
Qed.

(** X7: in the request body a vendor-specific option overrides the
    standard field of the same name (the last writer wins, also among the
    options); every key that the options do not mention keeps the standard
    value. *)
Theorem payload_extra_precedence (srv : ServerSpec) (prompt_text : pystr)
        (cfg : RequestConfig) (extra : pydict) (key : pystr) :
  extra_json cfg = Some extra ->
  lookup key (build_payload srv prompt_text cfg) =
  match lookup key (rev extra) with
  | Some v => Some v
  | None => lookup key (build_payload srv prompt_text (without_extra cfg))
  end.
Proof.
  intros He. unfold build_payload. rewrite He. cbn [without_extra extra_json].
  destruct extra as [| kv more]; [reflexivity |].
  now rewrite lookup_dict_update.
Qed.

Lemma payload_extra_precedence_witness :
  lookup (lit "stream")
         (build_payload sample_server (lit "Hello")
            (mk_cfg (2 # 10) 512 true 60
                    (Some [(lit "stream", JBool false);
                           (lit "top_k", JInt 40)])))
  = Some (JBool false).
Proof.
  rewrite (payload_extra_precedence sample_server (lit "Hello") _
             [(lit "stream", JBool false); (lit "top_k", JInt 40)]);
    reflexivity.
Defined.

(** ** Trial executor: invariants of an outcome *)

Lemma utf8_width_bounds (cp : N) : 0 <= utf8_width cp <= 4.
Proof.
  unfold utf8_width.
  repeat match goal with |- context [if ?b then _ else _] => destruct b end;
    lia.
Qed.

Lemma utf8_len_bounds (s : pystr) : 0 <= utf8_len s <= 4 * len s.
Proof.
  unfold len. induction s as [| cp s IH]; cbn [utf8_len fold_right List.length].
  - lia.
  - fold (utf8_len s). pose proof (utf8_width_bounds cp). lia.
Qed.

Lemma py_len_nonneg (v : json) (n : Z) : py_len v = Ok n -> 0 <= n.
Proof.
  destruct v; cbn; intros [= <-] || discriminate; unfold len; lia.
Qed.

(** A value that can be encoded is a str, and then its two sizes are
    related. *)
Lemma encode_len_bounds (v : json) (n m : Z) :
  py_len v = Ok n -> encode_len v = Ok m -> 0 <= m <= 4 * n.
Proof.
  destruct v; cbn; try discriminate.
  intros [= <-] [= <-]. apply utf8_len_bounds.
Qed.

Lemma elapsed_ms_mono (t0 t now : Q) :
  (t <= now)%Q -> (elapsed_ms t0 t <= elapsed_ms t0 now)%Q.
Proof. unfold elapsed_ms. intros H. lra. Qed.

Lemma elapsed_ms_nonneg (t0 now : Q) :
  (t0 <= now)%Q -> (0 <= elapsed_ms t0 now)%Q.
Proof. unfold elapsed_ms. intros H. lra. Qed.

Section OutcomeInvariants.

Variable json_loads : pystr -> option json.
Variable json_dumps : json -> pystr.

Local Abbreviation run := (run_single_chat json_loads json_dumps).
Local Abbreviation body := (try_block json_loads json_dumps).

Lemma consume_completed lines t0 fte lv lv' :
  consume json_loads t0 lines fte lv = Completed lv' ->
  exists b, l_total_ms lv' = Some b.
Proof.
  revert fte lv.
  induction lines as [line now rest IH | now | e now]; intros fte lv;
    [| cbn; intros [= <-]; cbn; eauto | discriminate].
  cbn [consume]. destruct line as [| ch line]; [apply IH |].
  destruct (pystr_eqb _ _); [intros [= <-]; cbn; eauto |].
  destruct (chunk_text_of _ _) as [v | e]; [| discriminate].
  destruct (truthy v); [| apply IH].
  destruct (py_len v) as [n | e]; [| discriminate].
  destruct (encode_len v) as [m | e]; [apply IH | discriminate].
Qed.

Lemma consume_sizes lines t0 fte lv :
  0 <= l_output_bytes lv <= 4 * l_output_chars lv ->
  let lv' := locals_of (consume json_loads t0 lines fte lv) in
  0 <= l_output_bytes lv' <= 4 * l_output_chars lv'.
Proof.
  revert fte lv.
  induction lines as [line now rest IH | now | e now]; intros fte lv H;
    [| exact H | exact H].
  cbn [consume]. destruct line as [| ch line]; [now apply IH |].
  destruct (pystr_eqb _ _); [exact H |].
  destruct (chunk_text_of _ _) as [v | e]; [| exact H].
  destruct (truthy v); [| now apply IH].
  destruct (py_len v) as [n | e] eqn:Hlen; [| destruct fte; exact H].
  pose proof (py_len_nonneg _ _ Hlen) as Hn.
  destruct (encode_len v) as [m | e] eqn:Henc.
  - apply IH. pose proof (encode_len_bounds _ _ _ Hlen Henc).
    destruct fte;
      cbn [l_output_bytes l_output_chars add_bytes add_chars set_ttft]; lia.
  - destruct fte;
      cbn [locals_of l_output_bytes l_output_chars add_chars set_ttft]; lia.
Qed.

Lemma consume_first_token lines t0 fte lv :
  (fte = true -> l_ttft_ms lv <> None) ->
  (l_ttft_ms lv = None -> l_output_chars lv = 0 /\ l_output_bytes lv = 0) ->
  let lv' := locals_of (consume json_loads t0 lines fte lv) in
  l_ttft_ms lv' = None -> l_output_chars lv' = 0 /\ l_output_bytes lv' = 0.
Proof.
  revert fte lv.
  induction lines as [line now rest IH | now | e now]; intros fte lv Hf H;
    [| exact H | exact H].
  cbn [consume]. destruct line as [| ch line]; [now apply IH |].
  destruct (pystr_eqb _ _); [exact H |].
  destruct (chunk_text_of _ _) as [v | e]; [| exact H].
  destruct (truthy v); [| now apply IH].
  assert (Hset : l_ttft_ms (if fte then lv
                            else set_ttft lv (elapsed_ms t0 now)) <> None).
  { destruct fte; [now apply Hf | discriminate]. }
  destruct (py_len v) as [n | e]; [| cbn; intros Hn; now apply Hset in Hn].
  destruct (encode_len v) as [m | e];
    [| cbn; intros Hn; destruct fte; now apply Hset in Hn].
  apply IH; [intros _ | intros Hn]; destruct fte; cbn in *;
    solve [now apply Hset | discriminate | now apply Hset in Hn].
Qed.

Lemma consume_timed lines t0 t fte lv :
  (t0 <= t)%Q -> feed_from t lines ->
  (forall a, l_ttft_ms lv = Some a ->
             (0 <= a)%Q /\ (a <= elapsed_ms t0 t)%Q) ->
  timed t0 (consume json_loads t0 lines fte lv).
Proof.
  revert t fte lv.
  induction lines as [line now rest IH | now | e now]; intros t fte lv Ht Hfeed H.
  - destruct Hfeed as [Hnow Hrest].
    assert (Ht0 : (t0 <= now)%Q) by lra.
    pose proof (elapsed_ms_mono t0 t now Hnow) as Hmono.
    pose proof (elapsed_ms_nonneg t0 now Ht0) as Hpos.
    assert (H' : forall a, l_ttft_ms lv = Some a ->
                           (0 <= a)%Q /\ (a <= elapsed_ms t0 now)%Q).
    { intros a Ha. destruct (H a Ha). split; lra. }
    assert (H1 : forall a,
               l_ttft_ms (if fte then lv
                          else set_ttft lv (elapsed_ms t0 now)) = Some a ->
               (0 <= a)%Q /\ (a <= elapsed_ms t0 now)%Q).
    { destruct fte; [exact H' |]. cbn. intros a [= <-]. split; lra. }
    cbn [consume]. destruct line as [| ch line].
    + now apply (IH now).
    + destruct (pystr_eqb _ _).
      * cbn. eexists. split; [reflexivity |]. split; assumption.
      * destruct (chunk_text_of _ _) as [v | e]; [| cbn; auto].
        destruct (truthy v); [| now apply (IH now)].
        destruct (py_len v) as [n | e]; [| cbn; auto].
        destruct (encode_len v) as [m | e]; [| cbn; auto].
        apply (IH now); assumption.
  - cbn in *. assert (Ht0 : (t0 <= now)%Q) by lra.
    pose proof (elapsed_ms_mono t0 t now Hfeed).
    pose proof (elapsed_ms_nonneg t0 now Ht0).
    eexists. split; [reflexivity |]. split; [assumption |].
    intros a Ha. destruct (H a Ha). split; lra.
  - cbn in *. assert (Ht0 : (t0 <= now)%Q) by lra.
    pose proof (elapsed_ms_mono t0 t now Hfeed).
    pose proof (elapsed_ms_nonneg t0 now Ht0).
    split; [assumption |].
    intros a Ha. destruct (H a Ha). split; lra.
Qed.

Lemma measure_body_bounds (text : pystr) :
  0 <= snd (measure_body json_loads json_dumps text)
    <= 4 * fst (measure_body json_loads json_dumps text).
Proof.
  assert (Hraw : forall t : pystr, 0 <= snd (len t, utf8_len t)
                                   <= 4 * fst (len t, utf8_len t)).
  { intros t. cbn [fst snd]. apply utf8_len_bounds. }
  unfold measure_body.
  destruct (json_loads text) as [[| | | | | | fields] |]; try apply Hraw.
  destruct (choices_of (JObj fields)) as [choices |]; [| apply Hraw].
  cbn [bind]. destruct (truthy choices); [| apply Hraw].
  destruct (message_content choices) as [content |]; [| apply Hraw].
  cbn [bind].
  destruct (py_len content) as [n |] eqn:Hlen; [| apply Hraw].
  cbn [bind].
  destruct (encode_len content) as [m |] eqn:Henc; [| apply Hraw].
  cbn [bind fst snd]. exact (encode_len_bounds _ _ _ Hlen Henc).
Qed.

(** The locals with which the [try] block ends, on either path. *)
Lemma run_fields client srv pid it prompt cfg :
  let r := run client srv pid it prompt cfg in
  let lv := locals_of (body client (build_request client srv prompt cfg) cfg) in
  ttft_ms r = l_ttft_ms lv /\
  output_chars r = l_output_chars lv /\
  output_bytes r = l_output_bytes lv.
Proof.
  cbv zeta. unfold run_single_chat.
  destruct (body _ _ _); cbn; auto.
Qed.

(** X8: every outcome records a total duration, on the normal path and on
    the exception path alike. *)
Theorem total_always_defined client srv pid it prompt cfg :
exists b,
  total_ms (run_single_chat json_loads json_dumps client srv pid it prompt cfg)
  = Some b.
Proof.
unfold run_single_chat.
destruct (body _ _ _) as [lv | e now lv] eqn:Hb; cbn; [| eauto].
unfold try_block in Hb. destruct (stream cfg).
- destruct (client_stream _ _) as [e now | status lines]; [discriminate |].
  now apply consume_completed in Hb.
- destruct (client_post _ _) as [e now | status text now]; [discriminate |].
  destruct (measure_body _ _ _). injection Hb as <-. cbn. eauto.
Qed.

(** X9: output is only counted once the first token has been timed: an
    outcome without a time to first token has no output characters and no
    output bytes. *)
Theorem no_ttft_no_output client srv pid it prompt cfg :
let r := run_single_chat json_loads json_dumps client srv pid it prompt cfg in
ttft_ms r = None -> output_chars r = 0 /\ output_bytes r = 0.
Proof.
intros r. subst r.
destruct (run_fields client srv pid it prompt cfg) as (-> & -> & ->).
unfold try_block. destruct (stream cfg).
- destruct (client_stream _ _) as [e now | status lines]; [cbn; auto |].
  apply consume_first_token; [discriminate | cbn; auto].
- destruct (client_post _ _) as [e now | status text now]; [cbn; auto |].
  destruct (measure_body _ _ _). cbn. discriminate.
Qed.

(** X10: in every outcome the byte count is between zero and four times
    the character count. *)
Theorem output_size_bounds client srv pid it prompt cfg :
let r := run_single_chat json_loads json_dumps client srv pid it prompt cfg in
0 <= output_bytes r <= 4 * output_chars r.
Proof.
intros r. subst r.
destruct (run_fields client srv pid it prompt cfg) as (_ & -> & ->).
unfold try_block. destruct (stream cfg).
- destruct (client_stream _ _) as [e now | status lines];
    [cbn [locals_of init_locals l_output_bytes l_output_chars]; lia |].
  apply consume_sizes. cbn [set_status init_locals l_output_bytes l_output_chars].
  lia.
- destruct (client_post _ _) as [e now | status text now];
    [cbn [locals_of init_locals l_output_bytes l_output_chars]; lia |].
  pose proof (measure_body_bounds text) as H.
  destruct (measure_body _ _ _) as [chars bytes].
  exact H.
Qed.

(** X11: with a clock that never goes back, the total duration of an
    outcome is not negative, and the time to first token, when there is
    one, lies between zero and the total duration. *)
Theorem timings_ordered client srv pid it prompt cfg :
let r := run_single_chat json_loads json_dumps client srv pid it prompt cfg in
clock_ok client (build_request client srv prompt cfg) ->
exists b,
  total_ms r = Some b /\ (0 <= b)%Q /\
  forall a, ttft_ms r = Some a -> (0 <= a)%Q /\ (a <= b)%Q.
Proof.
intros r [Hs Hp].
assert (Ht : timed (perf_counter_start client)
               (body client (build_request client srv prompt cfg) cfg)).
{ unfold try_block. destruct (stream cfg).
  - destruct (client_stream _ _) as [e now | status lines].
    + cbn. split; [now apply elapsed_ms_nonneg | discriminate].
    + apply (consume_timed lines _ (perf_counter_start client));
        [apply Qle_refl | exact Hs | discriminate].
  - destruct (client_post _ _) as [e now | status text now].
    + cbn. split; [now apply elapsed_ms_nonneg | discriminate].
    + destruct (measure_body _ _ _). cbn.
      pose proof (elapsed_ms_nonneg _ _ Hp).
      eexists. split; [reflexivity |]. split; [assumption |].
      intros a [= <-]. split; [assumption | apply Qle_refl]. }
unfold r, run_single_chat.
destruct (body _ _ _) as [lv | e now lv]; cbn in *.
- exact Ht.
- destruct Ht as [H0 Ha]. eauto.
Qed.

(** X12: an outcome either carries the status code of a response and no
    error text, or carries an error text, no status code and
    [success = false]; never both and never neither. *)
Theorem error_or_status client srv pid it prompt cfg :
let r := run_single_chat json_loads json_dumps client srv pid it prompt cfg in
(error r = None /\ exists s, status_code r = Some s) \/
(status_code r = None /\ success r = false /\ exists msg, error r = Some msg).
Proof.
intros r. unfold r, run_single_chat.
destruct (body _ _ _) as [lv | e now lv] eqn:Hb; cbn; [left | right; eauto].
split; [reflexivity |].
unfold try_block in Hb. destruct (stream cfg).
- destruct (client_stream _ _) as [e now | status lines]; [discriminate |].
  pose proof (consume_status json_loads (perf_counter_start client) lines false
                (set_status init_locals status)) as Hst.
  rewrite Hb in Hst. cbn in Hst. eauto.
- destruct (client_post _ _) as [e now | status text now]; [discriminate |].
  destruct (measure_body _ _ _). injection Hb as <-. cbn. eauto.
Qed.

End OutcomeInvariants.

Lemma timings_ordered_witness :
  exists b,
    total_ms (run_single_chat sample_loads sample_dumps greeting_client
                sample_server 0 1 (lit "Hello") streaming_cfg) = Some b /\
    (0 <= b)%Q.
Proof.
  destruct (timings_ordered sample_loads sample_dumps greeting_client
              sample_server 0 1 (lit "Hello") streaming_cfg) as (b & Hb & H0 & _).
  - split; cbn; unfold Qle; cbn; intuition lia.
  - exists b. split; assumption.
Defined.

Lemma no_ttft_no_output_witness :
  output_chars (run_single_chat sample_loads sample_dumps empty_answer_client
                  sample_server 0 1 (lit "Hello") streaming_cfg) = 0.
Proof.
  apply (no_ttft_no_output sample_loads sample_dumps empty_answer_client
           sample_server 0 1 (lit "Hello") streaming_cfg).
  reflexivity.
Defined.

(** ** Scheduler: edge cases and order *)

Lemma submitted_nil_iff servers prompts iterations :
  submitted servers prompts iterations = [] <->
  servers = [] \/ prompts = [] \/ iterations <= 0.
Proof.
  rewrite <- length_zero_iff_nil, submitted_length. split.
  - intros H. apply Nat.eq_mul_0 in H. destruct H as [H | H].
    + left. now apply length_zero_iff_nil.
    + apply Nat.eq_mul_0 in H. destruct H as [H | H].
      * right. left. now apply length_zero_iff_nil.
      * right. right. lia.
  - intros [-> | [-> | H]]; cbn; [reflexivity | lia |].
    replace (Z.to_nat iterations) with 0%nat by lia. lia.
Qed.

Section SchedulerEdges.

Variable json_loads : pystr -> option json.
Variable json_dumps : json -> pystr.
Variable net : trial -> AsyncClient.
Variable cfg : RequestConfig.

Local Abbreviation outcome := (bound_request json_loads json_dumps net cfg).
Local Abbreviation turn := (step json_loads json_dumps net cfg).
Local Abbreviation loop_of := (event_loop json_loads json_dumps net cfg).

(** Whatever the loop returns is made of the outcomes of the trials it was
    given. *)
Lemma event_loop_sound all fuel sched st results :
  accounted json_loads json_dumps net cfg all st ->
  loop_of fuel sched st = Some results ->
  Permutation results (map outcome all).
Proof.
  revert st. induction fuel as [| fuel IH]; intros st Hacc Hres;
    cbn in Hres; unfold accounted in Hacc.
  - destruct (waiting st), (running st); try discriminate.
    injection Hres as <-. cbn in Hacc. now rewrite app_nil_r in Hacc.
  - destruct (waiting st) as [| t w] eqn:Hw, (running st) as [| t' r] eqn:Hr.
    + injection Hres as <-. cbn in Hacc. now rewrite app_nil_r in Hacc.
    + destruct (next _ _ _ _ _ st) as [st' |] eqn:Hn; [| discriminate].
      apply (IH st'); [| exact Hres].
      eapply step_accounted; [| eapply next_step; exact Hn].
      unfold accounted. now rewrite Hw, Hr.
    + destruct (next _ _ _ _ _ st) as [st' |] eqn:Hn; [| discriminate].
      apply (IH st'); [| exact Hres].
      eapply step_accounted; [| eapply next_step; exact Hn].
      unfold accounted. now rewrite Hw, Hr.
    + destruct (next _ _ _ _ _ st) as [st' |] eqn:Hn; [| discriminate].
      apply (IH st'); [| exact Hres].
      eapply step_accounted; [| eapply next_step; exact Hn].
      unfold accounted. now rewrite Hw, Hr.
Qed.

Lemma run_benchmark_sound fuel sched servers prompts iterations k results :
  run_benchmark json_loads json_dumps net cfg fuel sched
                servers prompts iterations k = Some (Ok results) ->
  Permutation results (map outcome (submitted servers prompts iterations)).
Proof.
  unfold run_benchmark. destruct (k <? 0); [discriminate |].
  destruct (loop_of _ _ _) as [res |] eqn:Hres; [| discriminate].
  cbn. intros [= <-].
  eapply event_loop_sound; [| exact Hres]. apply start_accounted.
Qed.

(** X13: a negative concurrency limit makes the semaphore raise
    [ValueError] before any trial starts; with a limit of zero and at
    least one trial every trial waits for a permit that never comes, and
    [run_benchmark] does not return, however long the loop runs. *)
Theorem run_benchmark_without_permits fuel sched servers prompts iterations k :
(k < 0 ->
 run_benchmark json_loads json_dumps net cfg fuel sched
               servers prompts iterations k = Some (Raise value_error)) /\
(k = 0 -> submitted servers prompts iterations <> [] ->
 run_benchmark json_loads json_dumps net cfg fuel sched
               servers prompts iterations k = None).
Proof.
split.
- intros Hk. unfold run_benchmark.
  destruct (Z.ltb_spec k 0); [reflexivity | lia].
- intros -> Hne. unfold run_benchmark, start. cbn [Z.ltb Z.compare].
  destruct (submitted servers prompts iterations) as [| t w]; [congruence |].
  assert (H : forall n, loop_of n sched (mk_loop 0 (t :: w) [] []) = None).
  { intros [| n]; cbn; [reflexivity |].
    destruct (sched _) as [| i]; cbn; [reflexivity |].
    unfold release. cbn. now destruct i. }
  now rewrite H.
Qed.

(** X14: without servers, without prompts or with an iteration count of
    zero or less there is nothing to run: [run_benchmark] returns the empty
    list at once, for every concurrency limit that the semaphore accepts,
    zero included. *)
Theorem run_benchmark_nothing_to_do fuel sched servers prompts iterations k :
0 <= k ->
servers = [] \/ prompts = [] \/ iterations <= 0 ->
run_benchmark json_loads json_dumps net cfg fuel sched
              servers prompts iterations k = Some (Ok []).
Proof.
intros Hk Hnone. apply submitted_nil_iff in Hnone.
unfold run_benchmark, start. rewrite Hnone.
destruct (Z.ltb_spec k 0); [lia |]. now destruct fuel.
Qed.

(** With one permit the trials run one after the other. *)
Lemma serial_step all st st' :
  permits_ok 1 st ->
  finished st ++ map outcome (running st) ++ map outcome (waiting st)
  = map outcome all ->
  turn st st' ->
  finished st' ++ map outcome (running st') ++ map outcome (waiting st')
  = map outcome all.
Proof.
  intros [H0 Hp] Hall Hstep. unfold len in Hp.
  destruct Hstep as [v t w r f Hv | v w r1 t r2 f]; cbn in *.
  - destruct r as [| t' r]; [| cbn in Hp; lia]. exact Hall.
  - rewrite length_app in Hp. cbn in Hp.
    destruct r1 as [| a r1]; [| cbn in Hp; lia].
    destruct r2 as [| b r2]; [| cbn in Hp; lia].
    cbn in *. now rewrite <- app_assoc.
Qed.

Lemma serial_loop all fuel sched st results :
  permits_ok 1 st ->
  finished st ++ map outcome (running st) ++ map outcome (waiting st)
  = map outcome all ->
  loop_of fuel sched st = Some results ->
  results = map outcome all.
Proof.
  revert st. induction fuel as [| fuel IH]; intros st Hp Hall Hres;
    cbn in Hres.
  - destruct (waiting st), (running st); try discriminate.
    injection Hres as <-. cbn in Hall. now rewrite app_nil_r in Hall.
  - assert (Hnext : forall st',
              next json_loads json_dumps net cfg (sched st) st = Some st' ->
              loop_of fuel sched st' = Some results ->
              results = map outcome all).
    { intros st' Hn Hr. pose proof (next_step _ _ _ _ _ _ _ Hn) as Hstep.
      apply (IH st'); [| | exact Hr].
      - eapply step_permits; eauto.
      - eapply serial_step; eauto. }
    destruct (waiting st) as [| t w] eqn:Hw, (running st) as [| t' r] eqn:Hr;
      [injection Hres as <-; cbn in Hall; now rewrite app_nil_r in Hall
      | | | ];
      (destruct (next _ _ _ _ _ st) as [st' |] eqn:Hn; [| discriminate];
       now apply (Hnext st')).
Qed.

(** X15: with a concurrency limit of 1 the outcomes come back in
    submission order - server by server, prompt by prompt, repetition by
    repetition - whatever the schedule. *)
Theorem run_benchmark_serial_order sched servers prompts iterations fuel :
(2 * List.length (submitted servers prompts iterations) <= fuel)%nat ->
run_benchmark json_loads json_dumps net cfg fuel sched
              servers prompts iterations 1
= Some (Ok (map (bound_request json_loads json_dumps net cfg)
                (submitted servers prompts iterations))).
Proof.
intros Hfuel.
set (all := submitted servers prompts iterations) in *.
set (st0 := start servers prompts iterations 1).
assert (Hp : permits_ok 1 st0) by (apply start_permits; lia).
destruct (event_loop_returns json_loads json_dumps net cfg 1 sched all
            fuel st0) as (results & Hres & _); try assumption; try lia.
- apply start_accounted.
- unfold turns_left, st0, start. cbn. fold all. lia.
- unfold run_benchmark. cbn [Z.ltb Z.compare]. fold st0. rewrite Hres. cbn.
  do 2 f_equal.
  apply (serial_loop all fuel sched st0); [exact Hp | | exact Hres].
  unfold st0, start. cbn. fold all. reflexivity.
Qed.

End SchedulerEdges.

Lemma run_benchmark_without_permits_witness :
  run_benchmark sample_loads sample_dumps sample_net streaming_cfg
                100 first_come [sample_server] [lit "a"; lit "b"] 2 0 = None.
Proof.
  destruct (run_benchmark_without_permits sample_loads sample_dumps sample_net
              streaming_cfg 100 first_come [sample_server]
              [lit "a"; lit "b"] 2 0) as [_ H].
  apply H; [reflexivity | discriminate].
Defined.

Lemma run_benchmark_nothing_to_do_witness :
  run_benchmark sample_loads sample_dumps sample_net streaming_cfg
                0 first_come [sample_server] [lit "a"] (-3) 0 = Some (Ok []).
Proof.
  apply run_benchmark_nothing_to_do; [lia | right; right; lia].
Defined.

Lemma run_benchmark_serial_order_witness :
  run_benchmark sample_loads sample_dumps sample_net streaming_cfg
                8 (fun _ => Finish 3) [sample_server] [lit "a"; lit "b"] 2 1
  = Some (Ok (map (bound_request sample_loads sample_dumps sample_net
                                 streaming_cfg)
                  (submitted [sample_server] [lit "a"; lit "b"] 2))).
Proof.
  apply run_benchmark_serial_order. vm_compute. lia.
Defined.

(** ** Aggregator: keys, counts and rates *)

Lemma filter_and {A} (p q : A -> bool) (l : list A) :
  filter p (filter q l) = filter (fun x => q x && p x) l.
Proof.
  induction l as [| x l IH]; cbn; [reflexivity |].
  destruct (q x); cbn; [destruct (p x) |]; now rewrite IH.
Qed.

Lemma group_append_keys_eq groups k r :
  map fst (group_append groups k r) =
  if existsb (fun a => key_eqb a k) (map fst groups) then map fst groups
  else map fst groups ++ [k].
Proof.
  induction groups as [| [k0 items0] groups IH]; cbn; [reflexivity |].
  destruct (key_eqb k0 k); cbn; [reflexivity |].
  rewrite IH. now destruct (existsb _ _).
Qed.

Lemma group_fold_keys rest groups :
  map fst (fold_left (fun g r => group_append g (server r, r_model r) r)
                     rest groups) =
  map fst groups ++
  filter (fun k => negb (existsb (fun a => key_eqb a k) (map fst groups)))
         (first_seen (map key_of rest)).
Proof.
  revert groups.
  induction rest as [| r rest IH]; intros groups; cbn [fold_left map first_seen].
  - cbn. now rewrite app_nil_r.
  - rewrite IH. fold (key_of r). rewrite group_append_keys_eq.
    cbn [filter].
    destruct (existsb (fun a => key_eqb a (key_of r)) (map fst groups)) eqn:Hex;
      cbn [negb].
    + f_equal. rewrite filter_and. apply filter_ext. intros k.
      destruct (key_eqb (key_of r) k) eqn:Hk; cbn; [| reflexivity].
      apply key_eqb_eq in Hk. subst k. now rewrite Hex.
    + rewrite <- app_assoc. cbn. do 2 f_equal.
      rewrite filter_and. apply filter_ext. intros k.
      rewrite existsb_app. cbn. rewrite orb_false_r, negb_orb.
      apply andb_comm.
Qed.

Lemma group_keys results :
  map fst (group results) = first_seen (map key_of results).
Proof.
  unfold group. rewrite group_fold_keys. cbn.
  induction (first_seen (map key_of results)) as [| k l IH]; cbn;
    [reflexivity | now rewrite IH].
Qed.

(** X16: the summary has one entry for each distinct (server, model) pair
    of the outcomes, in the order in which the pairs first occur. *)
Theorem aggregate_keys_first_seen results summary :
  aggregate results = Ok summary ->
  map fst summary = first_seen (map key_of results) /\
  NoDup (map fst summary).
Proof.
  intros Hagg. apply summarize_all_keys in Hagg. rewrite Hagg. split.
  - apply group_keys.
  - now destruct (group_grouped results) as (Hnd & _).
Qed.

(** The head of a summary: the number of runs and the success rate. *)
Lemma summarize_head items s :
  summarize items = Ok s ->
  runs s = len items /\
  success_rate s = (inject_Z (len (filter success items))
                    / inject_Z (Z.max 1 (len items)))%Q.
Proof.
  destruct (summarize_cases items)
    as (rate & ta & fa & ca & ba & f50 & f95 & t50 & t95
        & Hta & Hfa & Hca & Hba & Hf50 & Hf95 & Ht50 & Ht95 & Hsum).
  intros Hs.
  assert (Hrate : truediv (inject_Z (len (filter success items)))
                          (inject_Z (Z.max 1 (len items)))
                  = Ok (success_rate s) /\ runs s = len items).
  { unfold summarize in Hs.
    destruct (truediv _ _) as [rate' |]; [| discriminate]. cbn [bind] in Hs.
    rewrite Hta, Hfa, Hca, Hba, Hf50, Hf95, Ht50, Ht95 in Hs.
    cbn [bind] in Hs.
    destruct (per_sec ca ta _) as [cps |]; [| discriminate].
    destruct (per_sec ba ta _) as [bps |]; [| discriminate].
    cbn in Hs. injection Hs as <-. cbn. auto. }
  destruct Hrate as [Hrate Hruns]. split; [exact Hruns |].
  unfold truediv in Hrate. rewrite inject_Z_nonzero in Hrate by lia.
  now injection Hrate as <-.
Qed.

Lemma group_append_total groups k r :
  list_sum (map (fun g => List.length (snd g)) (group_append groups k r))
  = S (list_sum (map (fun g => List.length (snd g)) groups)).
Proof.
  induction groups as [| [k0 items0] groups IH]; [reflexivity |].
  cbn [group_append]. destruct (key_eqb k0 k); simpl.
  - rewrite length_app. simpl. lia.
  - rewrite IH. lia.
Qed.

Lemma group_total results :
  list_sum (map (fun g => List.length (snd g)) (group results))
  = List.length results.
Proof.
  unfold group.
  assert (H : forall rest groups,
    list_sum (map (fun g => List.length (snd g))
                  (fold_left (fun g r => group_append g (server r, r_model r) r)
                             rest groups))
    = (list_sum (map (fun g => List.length (snd g)) groups)
       + List.length rest)%nat).
  { induction rest as [| r rest IH]; intros groups; simpl; [lia |].
    rewrite IH, group_append_total. lia. }
  now rewrite H.
Qed.

Lemma summarize_all_total groups summary :
  summarize_all groups = Ok summary ->
  total_runs summary
  = Z.of_nat (list_sum (map (fun g => List.length (snd g)) groups)).
Proof.
  revert summary.
  induction groups as [| [k items] groups IH]; cbn; intros summary Hs.
  - now injection Hs as <-.
  - destruct (summarize items) as [s |] eqn:Hs0; [| discriminate].
    destruct (summarize_all groups) as [rest |]; [| discriminate].
    cbn in Hs. injection Hs as <-. cbn [total_runs fold_right snd].
    fold (total_runs rest). rewrite (IH rest eq_refl).
    destruct (summarize_head _ _ Hs0) as [-> _].
    unfold len, list_sum in *. lia.
Qed.

(** X17: aggregation loses and duplicates nothing: the [runs] of all
    summaries add up to the number of outcomes, and the [runs] of one
    summary is the number of outcomes with its key, which is at least
    one. *)
Theorem aggregate_counts_every_outcome results summary :
  aggregate results = Ok summary ->
  total_runs summary = len results /\
  forall key s, In (key, s) summary ->
    runs s = len (members key results) /\ 1 <= runs s.
Proof.
  intros Hagg. split.
  - unfold aggregate in Hagg.
    rewrite (summarize_all_total _ _ Hagg), group_total. reflexivity.
  - intros key s Hin.
    destruct (aggregate_entry _ _ _ _ Hagg Hin) as (_ & Hne & Hs).
    destruct (summarize_head _ _ Hs) as [-> _].
    split; [reflexivity |].
    unfold len. destruct (members key results); [congruence | cbn; lia].
Qed.

(** X18: the success rate of a summary is the number of its successful
    outcomes over the number of its outcomes, a number between 0 and 1. *)
Theorem success_rate_is_a_proportion results summary key s :
  aggregate results = Ok summary -> In (key, s) summary ->
  let items := members key results in
  success_rate s
  = (inject_Z (len (filter success items)) / inject_Z (runs s))%Q /\
  (0 <= success_rate s)%Q /\ (success_rate s <= 1)%Q.
Proof.
  intros Hagg Hin items.
  destruct (aggregate_entry _ _ _ _ Hagg Hin) as (_ & Hne & Hs).
  fold items in Hne, Hs.
  destruct (summarize_head _ _ Hs) as [Hruns Hrate].
  assert (Hlen : 1 <= len items).
  { unfold len. destruct items; [congruence | cbn; lia]. }
  rewrite Z.max_r in Hrate by lia. rewrite Hruns, Hrate.
  assert (Hpos : (0 < inject_Z (len items))%Q).
  { change 0%Q with (inject_Z 0). rewrite <- Zlt_Qlt. lia. }
  assert (Hsucc : 0 <= len (filter success items) <= len items).
  { unfold len. pose proof (filter_length_le success items). lia. }
  split; [reflexivity |]. split.
  - apply Qle_shift_div_l; [exact Hpos |].
    rewrite Qmult_0_l. change 0%Q with (inject_Z 0). rewrite <- Zle_Qle. lia.
  - apply Qle_shift_div_r; [exact Hpos |].
    rewrite Qmult_1_l. rewrite <- Zle_Qle. lia.
Qed.

Lemma aggregate_keys_first_seen_witness :
  exists summary,
    aggregate mixed_results = Ok summary /\
    map fst summary = [(lit "ollama", lit "llama3.1");
                       (lit "lmstudio", lit "Meta-Llama-3.1-8B-Instruct")].
Proof.
  destruct (aggregate mixed_results) as [summary | e] eqn:H.
  - exists summary. split; [reflexivity |].
    destruct (aggregate_keys_first_seen _ _ H) as [-> _]. reflexivity.
  - vm_compute in H. discriminate.
Defined.

Lemma aggregate_counts_every_outcome_witness :
  exists summary,
    aggregate mixed_results = Ok summary /\ total_runs summary = 4.
Proof.
  destruct (aggregate mixed_results) as [summary | e] eqn:H.
  - exists summary. split; [reflexivity |].
    now destruct (aggregate_counts_every_outcome _ _ H) as [-> _].
  - vm_compute in H. discriminate.
Defined.

Lemma success_rate_is_a_proportion_witness :
  exists summary,
    aggregate mixed_results = Ok summary /\
    forall key s, In (key, s) summary ->
                  (0 <= success_rate s)%Q /\ (success_rate s <= 1)%Q.
Proof.
  destruct (aggregate mixed_results) as [summary | e] eqn:H.
  - exists summary. split; [reflexivity |]. intros key s Hin.
    now destruct (success_rate_is_a_proportion _ _ key s H Hin) as (_ & ? & ?).
  - vm_compute in H. discriminate.
Defined.

(** ** Aggregator: when it returns *)

(** X20: with sizes within [sys.maxsize] and every qualifying total
    duration between a nanosecond and [2 ^ 63] ms, [aggregate] returns a
    summary, and in it every group that has a qualifying total duration
    has a positive mean total duration. *)
Theorem aggregate_returns_on_positive_durations (results : list SingleResult) :
  sizes_fit results -> durations_resolved results ->
  durations_bounded results ->
  exists summary,
    aggregate results = Ok summary /\
    forall key s, In (key, s) summary ->
      qualifying total_ms (members key results) <> [] ->
      exists t, total_ms_avg s = Num t /\ (0 < t)%Q.
Proof.
  intros _ Hres _.
  pose proof (durations_resolved_positive results Hres) as Hpos.
  destruct (aggregate_returns results Hpos) as [summary Hagg].
  exists summary. split; [exact Hagg |].
  intros key s Hin Hne.
  destruct (aggregate_entry _ _ _ _ Hagg Hin) as (_ & _ & Hs).
  destruct (summarize_timing_stats (members key results)) as [_ Hstats].
  destruct (Hstats s Hs) as (_ & (Hmean & _) & _).
  rewrite <- latencies_qualifying in Hmean, Hne.
  pose proof (latencies_members_positive results key Hpos) as Hall.
  destruct (latencies (members key results)) as [| x l] eqn:Hlat;
    [congruence |].
  rewrite mean_cons in Hmean. injection Hmean as <-.
  eexists. split; [reflexivity |].
  apply Qlt_shift_div_l.
  - change 0%Q with (inject_Z 0). rewrite <- Zlt_Qlt.
    unfold len. cbn [List.length]. lia.
  - rewrite Qmult_0_l. apply sum_positive; [discriminate | exact Hall].
Qed.

Lemma aggregate_returns_on_positive_durations_witness :
  exists summary,
    aggregate mixed_results = Ok summary /\
    forall key s, In (key, s) summary ->
      qualifying total_ms (members key mixed_results) <> [] ->
      exists t, total_ms_avg s = Num t /\ (0 < t)%Q.
Proof.
  apply aggregate_returns_on_positive_durations.
  - split; [reflexivity |].
    intros r Hin.
    repeat (destruct Hin as [<- | Hin];
            [split; split; cbn; first [discriminate | reflexivity] |]).
    destruct Hin.
  - intros r t Hin Hs Ht.
    repeat (destruct Hin as [<- | Hin]; [
      first [discriminate Hs | injection Ht as <-; discriminate] |]).
    destruct Hin.
  - intros r t Hin Hs Ht.
    repeat (destruct Hin as [<- | Hin]; [
      first [discriminate Hs | injection Ht as <-; discriminate] |]).
    destruct Hin.
Defined.



(** ** From the scheduler to the aggregator *)

Lemma first_seen_incl (keys : list group_key) (k : group_key) :
  In k (first_seen keys) -> In k keys.
Proof.
  induction keys as [| k0 keys IH]; cbn; [tauto |].
  intros [-> | H]; [now left |].
  apply filter_In in H. right. now apply IH.
Qed.

Lemma submitted_server servers prompts iterations t :
  In t (submitted servers prompts iterations) -> In (t_srv t) servers.
Proof.
  unfold submitted. intros H.
  apply in_flat_map in H. destruct H as (srv & Hsrv & H).
  apply in_flat_map in H. destruct H as (ip & _ & H).
  apply in_map_iff in H. destruct H as (i & <- & _). exact Hsrv.
Qed.

Section Pipeline.

Variable json_loads : pystr -> option json.
Variable json_dumps : json -> pystr.
Variable net : trial -> AsyncClient.
Variable cfg : RequestConfig.

(** An outcome carries the identity of its trial. *)
Lemma outcome_identity (t : trial) :
  let r := bound_request json_loads json_dumps net cfg t in
  server r = name (t_srv t) /\ r_model r = model (t_srv t) /\
  prompt_id r = t_pidx t /\ iteration r = t_it t.
Proof.
  cbv zeta. unfold bound_request, run_single_chat.
  destruct (try_block _ _ _ _ _); cbn; auto.
Qed.

Lemma summary_keys_of_servers fuel sched servers prompts iterations k
      results summary key :
  run_benchmark json_loads json_dumps net cfg fuel sched
                servers prompts iterations k = Some (Ok results) ->
  aggregate results = Ok summary ->
  In key (map fst summary) ->
  exists srv, In srv servers /\ key = (name srv, model srv).
Proof.
  intros Hrun Hagg Hin.
  apply run_benchmark_sound in Hrun.
  apply summarize_all_keys in Hagg. rewrite Hagg, group_keys in Hin.
  apply first_seen_incl in Hin. apply in_map_iff in Hin.
  destruct Hin as (r & <- & Hr).
  apply (Permutation_in _ Hrun) in Hr. apply in_map_iff in Hr.
  destruct Hr as (t & <- & Ht).
  exists (t_srv t). split; [now apply submitted_server in Ht |].
  destruct (outcome_identity t) as (Hs & Hm & _).
  unfold key_of. cbv zeta in Hs, Hm. now rewrite Hs, Hm.
Qed.

(** X23: the summary of a benchmark run has entries only for the
    (name, model) pairs of the servers given, at most one per server, and
    its [runs] add up to [|servers| * |prompts| * max(0, iterations)]. *)
Theorem summary_of_a_run fuel sched servers prompts iterations k
        results summary :
run_benchmark json_loads json_dumps net cfg fuel sched
              servers prompts iterations k = Some (Ok results) ->
aggregate results = Ok summary ->
(forall key s, In (key, s) summary ->
   exists srv, In srv servers /\ key = (name srv, model srv)) /\
(List.length summary <= List.length servers)%nat /\
total_runs summary = len servers * len prompts * Z.max 0 iterations.
Proof.
intros Hrun Hagg.
assert (Hkeys : forall key, In key (map fst summary) ->
          exists srv, In srv servers /\ key = (name srv, model srv))
  by (intros key; eapply summary_keys_of_servers; eauto).
split; [| split].
- intros key s Hin. apply Hkeys. now apply (in_map fst) in Hin.
- rewrite <- (length_map fst summary).
  rewrite <- (length_map (fun srv => (name srv, model srv)) servers).
  apply NoDup_incl_length.
  + pose proof (summarize_all_keys _ _ Hagg) as Hk. rewrite Hk.
    now destruct (group_grouped results) as (Hnd & _).
  + intros key Hin. destruct (Hkeys key Hin) as (srv & Hsrv & ->).
    now apply (in_map (fun srv => (name srv, model srv))).
- unfold aggregate in Hagg.
  rewrite (summarize_all_total _ _ Hagg), group_total.
  apply run_benchmark_sound in Hrun.
  rewrite (Permutation_length Hrun), length_map, submitted_length.
  unfold len. lia.
Qed.

End Pipeline.

Lemma summary_of_a_run_witness :
  exists results summary,
    run_benchmark sample_loads sample_dumps sample_net streaming_cfg
                  8 first_come [sample_server] [lit "a"; lit "b"] 2 1
    = Some (Ok results) /\
    aggregate results = Ok summary /\
    (List.length summary <= 1)%nat /\ total_runs summary = 4.
Proof.
  destruct (run_benchmark sample_loads sample_dumps sample_net streaming_cfg
              8 first_come [sample_server] [lit "a"; lit "b"] 2 1)
    as [[results | e] |] eqn:Hrun;
    [| vm_compute in Hrun; discriminate | vm_compute in Hrun; discriminate].
  destruct (aggregate results) as [summary | e] eqn:Hagg.
  - exists results, summary.
    destruct (summary_of_a_run _ _ _ _ _ _ _ _ _ _ _ _ Hrun Hagg)
      as (_ & Hlen & Htotal).
    repeat split; assumption.
  - vm_compute in Hrun. injection Hrun as <-. vm_compute in Hagg.
    discriminate.
Defined.

(** ** Command line: [parse_server_arg] and [load_prompts] *)

Lemma split_on_zero sep s : split_on sep s 0 = [s].
Proof. now destruct s. Qed.

Lemma split_on_nonempty sep s m : split_on sep s m <> [].
Proof.
  revert m. induction s as [| ch s IH]; intros m; cbn; [discriminate |].
  destruct m as [| m]; [discriminate |].
  destruct (N.eqb ch sep); [discriminate |].
  now destruct (split_on sep s (S m)).
Qed.

Lemma split_on_cut sep a b m :
  ~ In sep a -> split_on sep (a ++ sep :: b) (S m) = a :: split_on sep b m.
Proof.
  induction a as [| ch a IH]; intros Hn; cbn.
  - now rewrite N.eqb_refl.
  - destruct (N.eqb_spec ch sep) as [-> | Hne]; [exfalso; apply Hn; now left |].
    rewrite IH; [reflexivity |]. intros H. apply Hn. now right.
Qed.

Lemma split_on_inv sep s m a rest :
  split_on sep s (S m) = a :: rest ->
  ~ In sep a /\
  match rest with
  | [] => s = a
  | _ :: _ => exists b, s = a ++ sep :: b /\ split_on sep b m = rest
  end.
Proof.
  revert a rest. induction s as [| ch s IH]; intros a rest; cbn.
  - intros [= <- <-]. split; [intros [] | reflexivity].
  - destruct (N.eqb_spec ch sep) as [-> | Hne].
    + intros [= <- <-]. split; [intros [] |].
      pose proof (split_on_nonempty sep s m).
      destruct (split_on sep s m) eqn:Hs; [congruence |].
      exists s. now rewrite Hs.
    + destruct (split_on sep s (S m)) as [| part parts] eqn:Hs;
        [now apply split_on_nonempty in Hs |].
      intros [= <- <-]. destruct (IH part parts eq_refl) as [Hn Hrest].
      split; [intros [H | H]; [congruence | contradiction] |].
      destruct parts; [now rewrite Hrest |].
      destruct Hrest as (b & -> & Hb). exists b. auto.
Qed.

Lemma first_occurrence (sep : N) (s : pystr) :
  In sep s -> exists a b, s = a ++ sep :: b /\ ~ In sep a.
Proof.
  induction s as [| ch s IH]; [intros [] |].
  destruct (N.eq_dec ch sep) as [-> | Hne].
  - intros _. exists [], s. split; [reflexivity | intros []].
  - intros [H | H]; [congruence |].
    destruct (IH H) as (a & b & -> & Hn).
    exists (ch :: a), b. split; [reflexivity |].
    intros [H' | H']; [congruence | contradiction].
Qed.

(** The three parts of a well-formed argument. *)
Lemma split_three (arg n u m : pystr) :
  split_on bar arg 2 = [n; u; m] <->
  arg = n ++ bar :: u ++ bar :: m /\ ~ In bar n /\ ~ In bar u.
Proof.
  split.
  - intros H. apply split_on_inv in H. destruct H as (Hn & b & -> & H).
    apply split_on_inv in H. destruct H as (Hu & c & -> & H).
    rewrite split_on_zero in H. injection H as <-. auto.
  - intros (-> & Hn & Hu).
    now rewrite (split_on_cut bar n _ 1 Hn), (split_on_cut bar u _ 0 Hu),
      split_on_zero.
Qed.

Lemma parse_server_arg_parsed (arg : pystr) (srv : ServerSpec) :
  parse_server_arg arg = Parsed srv <->
  exists n u m,
    split_on bar arg 2 = [n; u; m] /\
    srv = mk_server (strip n) (strip u) (strip m).
Proof.
  unfold parse_server_arg. split.
  - destruct (split_on bar arg 2) as [| n [| u [| m [| x rest]]]];
      try discriminate.
    intros [= <-]. eauto.
  - intros (n & u & m & -> & ->). reflexivity.
Qed.

(** X24: [parse_server_arg] accepts an argument exactly when it contains
    at least two bars; every other argument is rejected with
    [ArgumentTypeError]. *)
Theorem parse_server_arg_accepts (arg : pystr) :
  ((exists srv, parse_server_arg arg = Parsed srv) <->
   (2 <= count_occ N.eq_dec arg bar)%nat) /\
  ((count_occ N.eq_dec arg bar < 2)%nat ->
   exists msg, parse_server_arg arg = ArgumentTypeError msg).
Proof.
  assert (Hiff : (exists srv, parse_server_arg arg = Parsed srv) <->
                 (2 <= count_occ N.eq_dec arg bar)%nat).
  { split.
    - intros [srv H]. apply parse_server_arg_parsed in H.
      destruct H as (n & u & m & H & _). apply split_three in H.
      destruct H as (-> & _ & _).
      rewrite count_occ_app, count_occ_cons_eq by reflexivity.
      rewrite count_occ_app, count_occ_cons_eq by reflexivity. lia.
    - intros H.
      assert (H1 : In bar arg) by (apply (count_occ_In N.eq_dec); lia).
      destruct (first_occurrence _ _ H1) as (n & b & -> & Hn).
      rewrite count_occ_app, count_occ_cons_eq in H by reflexivity.
      rewrite (proj1 (count_occ_not_In N.eq_dec n bar) Hn) in H.
      assert (H2 : In bar b) by (apply (count_occ_In N.eq_dec); lia).
      destruct (first_occurrence _ _ H2) as (u & m & -> & Hu).
      eexists. apply parse_server_arg_parsed. exists n, u, m.
      split; [| reflexivity]. apply split_three. auto. }
  split; [exact Hiff |].
  intros Hlt. destruct (parse_server_arg arg) as [srv | msg] eqn:H; [| eauto].
  assert (2 <= count_occ N.eq_dec arg bar)%nat by (apply Hiff; eauto). lia.
Qed.

Lemma parse_server_arg_accepts_witness :
  exists msg,
    parse_server_arg (lit "ollama|http://localhost:11434")
    = ArgumentTypeError msg.
Proof.
  destruct (parse_server_arg_accepts (lit "ollama|http://localhost:11434"))
    as [_ H].
  apply H. vm_compute. lia.
Defined.

Lemma lstrip_fixed f s :
  match s with [] => True | ch :: _ => f ch = false end -> lstrip f s = s.
Proof. destruct s as [| ch s]; cbn; [reflexivity | now intros ->]. Qed.

Lemma lstrip_head f s :
  match lstrip f s with [] => True | ch :: _ => f ch = false end.
Proof.
  induction s as [| ch s IH]; cbn; [exact I |].
  destruct (f ch) eqn:H; [exact IH | exact H].
Qed.

Lemma rstrip_head f s :
  match s with [] => True | ch :: _ => f ch = false end ->
  match rstrip f s with [] => True | ch :: _ => f ch = false end.
Proof.
  destruct s as [| ch s]; cbn; [trivial |]. intros H.
  destruct (rstrip f s); [now rewrite H | exact H].
Qed.

Lemma rstrip_idempotent f s : rstrip f (rstrip f s) = rstrip f s.
Proof. apply rstrip_fixed. intros x ch H. now apply rstrip_last in H. Qed.

Lemma strip_idempotent s : strip (strip s) = strip s.
Proof.
  unfold strip.
  rewrite (lstrip_fixed is_space (rstrip is_space (lstrip is_space s))).
  - apply rstrip_idempotent.
  - apply rstrip_head, lstrip_head.
Qed.

Lemma lstrip_incl f s x : In x (lstrip f s) -> In x s.
Proof.
  induction s as [| ch s IH]; cbn; [tauto |].
  destruct (f ch); [intros H; right; now apply IH | cbn; tauto].
Qed.

Lemma rstrip_incl f s x : In x (rstrip f s) -> In x s.
Proof.
  induction s as [| ch s IH]; cbn; [tauto |].
  destruct (rstrip f s) as [| r0 r].
  - destruct (f ch); cbn; tauto.
  - cbn in *. intros [H | H]; [now left | right; now apply IH].
Qed.

Lemma strip_incl s x : In x (strip s) -> In x s.
Proof. unfold strip. intros H. now apply rstrip_incl, lstrip_incl in H. Qed.

(** X25: an argument [n|u|m] in which [n] and [u] contain no bar parses to
    the three parts with the surrounding whitespace removed - the model may
    contain bars - and every accepted argument is of this form.  The
    fields of a parsed server have no whitespace left to strip, and its
    name and base URL contain no bar. *)
Theorem parse_server_arg_round_trip :
  (forall n u m, ~ In bar n -> ~ In bar u ->
     parse_server_arg (n ++ bar :: u ++ bar :: m)
     = Parsed (mk_server (strip n) (strip u) (strip m))) /\
  (forall arg srv, parse_server_arg arg = Parsed srv ->
     (exists n u m,
        arg = n ++ bar :: u ++ bar :: m /\ ~ In bar n /\ ~ In bar u /\
        srv = mk_server (strip n) (strip u) (strip m)) /\
     strip (name srv) = name srv /\
     strip (base_url srv) = base_url srv /\
     strip (model srv) = model srv /\
     ~ In bar (name srv) /\ ~ In bar (base_url srv)).
Proof.
  split.
  - intros n u m Hn Hu. apply parse_server_arg_parsed. exists n, u, m.
    split; [| reflexivity]. apply split_three. auto.
  - intros arg srv H. apply parse_server_arg_parsed in H.
    destruct H as (n & u & m & H & ->). apply split_three in H.
    destruct H as (-> & Hn & Hu). cbn [name base_url model].
    split; [exists n, u, m; auto |].
    rewrite !strip_idempotent. repeat split; try reflexivity.
    + intros H. apply Hn. now apply strip_incl.
    + intros H. apply Hu. now apply strip_incl.
Qed.

Lemma parse_server_arg_round_trip_witness :
  parse_server_arg (lit " ollama |http://localhost:11434| llama|3.1 ")
  = Parsed (mk_server (lit "ollama") (lit "http://localhost:11434")
                      (lit "llama|3.1")).
Proof.
  destruct parse_server_arg_round_trip as [H _].
  apply (H (lit " ollama ") (lit "http://localhost:11434")
           (lit " llama|3.1 "));
    vm_compute; intuition discriminate.
Defined.

(** X26: [load_prompts] never returns an empty list: the non-blank lines
    of the file come first, stripped, then the prompts of the command line
    as they are, and when there is none of either the three built-in
    prompts are used.  An error of [open] is not caught. *)
Theorem load_prompts_never_empty (prompts_file : option file_read)
        (prompt : list pystr) :
  let from_file :=
    match prompts_file with
    | Some (FileLines lines) => file_prompts lines
    | _ => []
    end in
  (forall msg, prompts_file = Some (FileError msg) ->
               load_prompts prompts_file prompt = inl msg) /\
  ((forall msg, prompts_file <> Some (FileError msg)) ->
   exists prompts,
     load_prompts prompts_file prompt = inr prompts /\
     prompts <> [] /\
     (from_file ++ prompt <> [] -> prompts = from_file ++ prompt) /\
     (from_file ++ prompt = [] -> prompts = default_prompts)).
Proof.
  intros from_file. split.
  - intros msg ->. reflexivity.
  - intros Hok. subst from_file. unfold load_prompts.
    destruct prompts_file as [fr |].
    + destruct fr as [lines | msg]; [| now destruct (Hok msg)].
      destruct (file_prompts lines ++ prompt) as [| p ps] eqn:Hl;
        eexists; (split; [reflexivity |]); repeat split; intros;
        congruence || discriminate.
    + cbn [app]. destruct prompt as [| p ps];
        eexists; (split; [reflexivity |]); repeat split; intros;
        congruence || discriminate.
Qed.

Lemma load_prompts_never_empty_witness :
  exists prompts,
    load_prompts (Some (FileLines [lit "  first  "; lit "   "; []]))
                 [lit "second"] = inr prompts /\
    prompts <> [].
Proof.
  destruct (load_prompts_never_empty
              (Some (FileLines [lit "  first  "; lit "   "; []]))
              [lit "second"]) as [_ H].
  destruct H as (prompts & Hp & Hne & _); [discriminate |].
  exists prompts. split; assumption.
Defined.

(** X27: a prompt read from the file is never blank and has no leading or
    trailing whitespace. *)
Theorem file_prompts_are_stripped (lines : list pystr) (p : pystr) :
  In p (file_prompts lines) ->
  p <> [] /\ strip p = p /\ exists line, In line lines /\ p = strip line.
Proof.
  unfold file_prompts. intros H. apply filter_In in H.
  destruct H as [Hin Hne]. apply in_map_iff in Hin.
  destruct Hin as (line & <- & Hline).
  split; [now destruct (strip line) |].
  split; [apply strip_idempotent | eauto].
Qed.

Lemma file_prompts_are_stripped_witness :
  lit "first" <> [] /\ strip (lit "first") = lit "first".
Proof.
  destruct (file_prompts_are_stripped
              [lit "  first  "; lit "   "] (lit "first")) as (H1 & H2 & _).
  - vm_compute. now left.
  - split; assumption.
Defined.

(** ** Export: the keys of the summary file and the CSV header *)

Lemma bar_cut (n1 n2 m1 m2 : pystr) :
  ~ In bar n1 -> ~ In bar n2 ->
  n1 ++ bar :: m1 = n2 ++ bar :: m2 -> n1 = n2 /\ m1 = m2.
Proof.
  revert n2. induction n1 as [| c n1 IH]; intros [| d n2] H1 H2; cbn.
  - now intros [= <-].
  - intros [= <- _]. exfalso. apply H2. now left.
  - intros [= -> _]. exfalso. apply H1. now left.
  - intros [= <- H].
    destruct (IH n2) as [-> ->]; try assumption; [| | auto];
      intros Hin; [apply H1 | apply H2]; now right.
Qed.

Lemma friendly_key_injective (k1 k2 : group_key) :
  ~ In bar (fst k1) -> ~ In bar (fst k2) ->
  friendly_key k1 = friendly_key k2 -> k1 = k2.
Proof.
  destruct k1 as [n1 m1], k2 as [n2 m2]. unfold friendly_key. cbn.
  intros H1 H2 H. now destruct (bar_cut _ _ _ _ H1 H2 H) as [-> ->].
Qed.

Lemma put_fresh {V} (d : list (pystr * V)) (key : pystr) (v : V) :
  ~ In key (map fst d) -> put d key v = d ++ [(key, v)].
Proof.
  induction d as [| [k old] d IH]; cbn; intros H; [reflexivity |].
  destruct (pystr_eqb k key) eqn:Hk.
  - apply pystr_eqb_eq in Hk. exfalso. apply H. now left.
  - rewrite IH; [reflexivity |]. intros Hin. apply H. now right.
Qed.

Lemma friendly_fold (summary : list (group_key * Summary))
      (d : list (pystr * Summary)) :
  NoDup (map fst d ++ map (fun kv => friendly_key (fst kv)) summary) ->
  fold_left (fun d kv => put d (friendly_key (fst kv)) (snd kv)) summary d
  = d ++ map (fun kv => (friendly_key (fst kv), snd kv)) summary.
Proof.
  revert d. induction summary as [| [k s] summary IH]; intros d Hnd; cbn.
  - now rewrite app_nil_r.
  - cbn in Hnd. rewrite put_fresh.
    + rewrite IH; [now rewrite <- app_assoc |].
      rewrite map_app. cbn. rewrite <- app_assoc. exact Hnd.
    + apply NoDup_remove_2 in Hnd. intros Hin. apply Hnd.
      apply in_or_app. now left.
Qed.

Lemma friendly_keys_nodup (summary : list (group_key * Summary)) :
  NoDup (map fst summary) ->
  (forall k, In k (map fst summary) -> ~ In bar (fst k)) ->
  NoDup (map (fun kv => friendly_key (fst kv)) summary).
Proof.
  induction summary as [| [k s] summary IH]; cbn; intros Hnd Hbar;
    [constructor |].
  inversion Hnd as [| ? ? Hnotin Hnd']; subst.
  constructor; [| apply IH; auto].
  intros Hin. apply in_map_iff in Hin. destruct Hin as ([k' s'] & Hk & Hin).
  cbn in Hk. apply friendly_key_injective in Hk.
  - subst k'. apply Hnotin. now apply (in_map fst) in Hin.
  - apply Hbar. right. now apply (in_map fst) in Hin.
  - apply Hbar. now left.
Qed.

(** X28: when the keys of a summary are distinct and no server name
    contains a bar, the re-keyed summary written to the summary file has
    one entry per summary, in the same order; in general two distinct
    keys can give the same file key, and then only one entry is kept. *)
Theorem friendly_summary_keeps_entries :
  (forall summary : list (group_key * Summary),
     NoDup (map fst summary) ->
     (forall k, In k (map fst summary) -> ~ In bar (fst k)) ->
     friendly_summary summary
     = map (fun kv => (friendly_key (fst kv), snd kv)) summary) /\
  (forall (k1 k2 : group_key) (s1 s2 : Summary),
     friendly_key k1 = friendly_key k2 ->
     friendly_summary [(k1, s1); (k2, s2)] = [(friendly_key k1, s2)]) /\
  (exists k1 k2 : group_key,
     k1 <> k2 /\ friendly_key k1 = friendly_key k2).
Proof.
  split; [| split].
  - intros summary Hnd Hbar. unfold friendly_summary.
    rewrite friendly_fold; [reflexivity |].
    cbn. now apply friendly_keys_nodup.
  - intros k1 k2 s1 s2 H. unfold friendly_summary. cbn.
    now rewrite <- H, pystr_eqb_refl.
  - exists (lit "a|b", lit "c"), (lit "a", lit "b|c").
    split; [discriminate | reflexivity].
Qed.

Lemma friendly_summary_keeps_entries_witness :
  exists summary,
    aggregate mixed_results = Ok summary /\
    List.length (friendly_summary summary) = 2%nat.
Proof.
  destruct (aggregate mixed_results) as [summary | e] eqn:H;
    [| vm_compute in H; discriminate].
  exists summary. split; [reflexivity |].
  destruct friendly_summary_keeps_entries as [Hkeep _].
  vm_compute in H. injection H as <-.
  rewrite Hkeep.
  - reflexivity.
  - cbn. repeat constructor; cbn; intuition discriminate.
  - cbn. intros k [<- | [<- | []]]; vm_compute; intuition discriminate.
Defined.

Section ExportPipeline.

Variable json_loads : pystr -> option json.
Variable json_dumps : json -> pystr.
Variable net : trial -> AsyncClient.
Variable cfg : RequestConfig.

(** X29: for servers that come from [parse_server_arg], as on the command
    line, the summary file of a run has exactly one entry for each summary
    record: no two records share a file key. *)
Theorem parsed_servers_keep_summaries fuel sched servers prompts
        iterations k results summary :
(forall srv, In srv servers ->
   exists arg, parse_server_arg arg = Parsed srv) ->
run_benchmark json_loads json_dumps net cfg fuel sched
              servers prompts iterations k = Some (Ok results) ->
aggregate results = Ok summary ->
friendly_summary summary
= map (fun kv => (friendly_key (fst kv), snd kv)) summary.
Proof.
intros Hparsed Hrun Hagg.
unfold friendly_summary. rewrite friendly_fold; [reflexivity |].
cbn. apply friendly_keys_nodup.
- pose proof (summarize_all_keys _ _ Hagg) as Hk. rewrite Hk.
  now destruct (group_grouped results) as (Hnd & _).
- intros key Hin.
  destruct (summary_keys_of_servers _ _ _ _ _ _ _ _ _ _ _ _ _
              Hrun Hagg Hin) as (srv & Hsrv & ->).
  destruct (Hparsed srv Hsrv) as [arg Harg].
  apply parse_server_arg_parsed in Harg.
  destruct Harg as (n & u & m & Hsplit & ->). apply split_three in Hsplit.
  destruct Hsplit as (_ & Hn & _). cbn.
  intros H. apply Hn. now apply strip_incl.
Qed.

End ExportPipeline.

Lemma parsed_servers_keep_summaries_witness :
  exists results summary,
    run_benchmark sample_loads sample_dumps sample_net streaming_cfg
                  8 first_come [sample_server] [lit "a"; lit "b"] 2 1
    = Some (Ok results) /\
    aggregate results = Ok summary /\
    friendly_summary summary
    = map (fun kv => (friendly_key (fst kv), snd kv)) summary.
Proof.
  destruct (run_benchmark sample_loads sample_dumps sample_net streaming_cfg
              8 first_come [sample_server] [lit "a"; lit "b"] 2 1)
    as [[results | e] |] eqn:Hrun;
    [| vm_compute in Hrun; discriminate | vm_compute in Hrun; discriminate].
  destruct (aggregate results) as [summary | e] eqn:Hagg.
  - exists results, summary. split; [reflexivity |]. split; [exact Hagg |].
    assert (Hparsed : forall srv, In srv [sample_server] ->
              exists arg, parse_server_arg arg = Parsed srv).
    { intros srv [<- | []].
      exists (lit "ollama|http://localhost:11434|llama3.1"). reflexivity. }
    exact (parsed_servers_keep_summaries _ _ _ _ _ _ _ _ _ _ _ _
             Hparsed Hrun Hagg).
  - vm_compute in Hrun. injection Hrun as <-. vm_compute in Hagg.
    discriminate.
Defined.

(** X30: the header of the CSV file is the same eleven names whether or
    not there are results, and every row written has exactly these keys,
    in this order. *)
Theorem csv_header_is_fixed (results : list SingleResult) :
  csv_fieldnames results = csv_fieldnames [] /\
  List.length (csv_fieldnames results) = 11%nat /\
  forall r, In r results -> map fst (asdict r) = csv_fieldnames results.
Proof.
  assert (H : csv_fieldnames results = csv_fieldnames [])
    by (now destruct results).
  rewrite H. repeat split.
Qed.

Lemma csv_header_is_fixed_witness :
  map fst (asdict failed_result) = csv_fieldnames mixed_results.
Proof.
  destruct (csv_header_is_fixed mixed_results) as (_ & _ & H).
  apply H. now left.
Defined.

